(** * Cluster discovery service (CDS) of Pilot: pilot/pkg/proxy/envoy/v2/cds.go

    A shallow embedding of the streaming handler [StreamClusters], its
    background reader, the broadcast [cdsPushAll], the debug endpoint [Cdsz],
    [FetchClusters] and [removeCdsCon], together with the properties of the
    discovery-stream specification that concern them.

    Go values are modelled as follows.
    - [error] values: the sentinel [io.EOF], gRPC status errors and plain
      [errors.New] errors; a nil error is [None].
    - pointers to [CdsConnection]: addresses in a heap ([gmap loc _]); an
      address that is not allocated plays the role of a nil pointer, whose
      dereference panics.
    - buffered channels: a capacity, the queue of buffered values and a
      closed flag.
    - goroutines: the reader and the main loop of one stream are interleaved
      by an explicit schedule of actions; what the environment decides (the
      result of [stream.Recv], of [stream.Send], of the cluster generator,
      the clock) is carried by the actions. *)

From stdpp Require Import base option list strings gmap.
From Stdlib Require Import ZArith Lia.

Local Open Scope string_scope.
Local Open Scope list_scope.
Local Open Scope nat_scope.

(** ** Go runtime values *)

Module Go.

(** google.golang.org/grpc/codes *)
Inductive Code :=
  | OK | Canceled | Unknown | InvalidArgument | DeadlineExceeded | NotFound
  | AlreadyExists | PermissionDenied | ResourceExhausted | FailedPrecondition
  | Aborted | OutOfRange | Unimplemented | Internal | Unavailable | DataLoss
  | Unauthenticated.

#[global] Instance Code_eq_dec : EqDecision Code.
Proof. solve_decision. Defined.

(** Non-nil values of the interface type [error]. *)
Inductive error :=
  | io_EOF
  | StatusError (c : Code) (msg : string)
  | ErrorString (msg : string).

#[global] Instance error_eq_dec : EqDecision error.
Proof. solve_decision. Defined.

Definition errors_New (msg : string) : error := ErrorString msg.

(** [err.Error()] *)
Definition error_Error (e : error) : string :=
  match e with
  | io_EOF => "EOF"
  | StatusError _ msg => msg
  | ErrorString msg => msg
  end.

(** [status.Code(err)]: the code of a status error, [OK] for nil and
    [Unknown] for every other error. *)
Definition status_Code (err : option error) : Code :=
  match err with
  | None => OK
  | Some (StatusError c _) => c
  | Some _ => Unknown
  end.

(** A buffered channel [make(chan A, cap)]. *)
Record Chan (A : Type) := MkChan {
  chan_cap : nat;
  chan_buf : list A;
  chan_closed : bool
}.
Arguments MkChan {A} _ _ _.
Arguments chan_cap {A} _.
Arguments chan_buf {A} _.
Arguments chan_closed {A} _.

Definition make_chan (A : Type) (n : nat) : Chan A := MkChan n [] false.

(** What [ch <- v] does when the sending goroutine is scheduled. *)
Inductive send_result (A : Type) :=
  | SendOk (ch : Chan A)      (* the value is buffered *)
  | SendBlocks                (* the buffer is full: the sender waits *)
  | SendPanics.               (* send on a closed channel *)
Arguments SendOk {A} _.
Arguments SendBlocks {A}.
Arguments SendPanics {A}.

Definition chan_send {A} (v : A) (ch : Chan A) : send_result A :=
  if chan_closed ch then SendPanics
  else if decide (length (chan_buf ch) < chan_cap ch)
       then SendOk (MkChan (chan_cap ch) (chan_buf ch ++ [v]) false)
       else SendBlocks.

(** What [v, ok = <-ch] does when the receiving goroutine is scheduled. *)
Inductive recv_result (A : Type) :=
  | RecvVal (v : A) (ch : Chan A)   (* ok = true *)
  | RecvClosed                      (* ok = false: closed and drained *)
  | RecvBlocks.                     (* empty and open: the receiver waits *)
Arguments RecvVal {A} _ _.
Arguments RecvClosed {A}.
Arguments RecvBlocks {A}.

Definition chan_recv {A} (ch : Chan A) : recv_result A :=
  match chan_buf ch with
  | v :: rest => RecvVal v (MkChan (chan_cap ch) rest (chan_closed ch))
  | [] => if chan_closed ch then RecvClosed else RecvBlocks
  end.

Definition chan_close {A} (ch : Chan A) : Chan A :=
  MkChan (chan_cap ch) (chan_buf ch) true.

(** Number of values waiting in the buffer. *)
Definition pending {A} (ch : Chan A) : nat := length (chan_buf ch).

End Go.
Import Go.

(** ** Collaborators of the package that live outside cds.go *)

Definition loc := positive.
Definition Time := Z.

(** [url.Values] of a parsed request form and its [Get]. *)
Definition Form_Get (form : gmap string (list string)) (key : string) : string :=
  match form !! key with
  | Some (v :: _) => v
  | _ => ""
  end.

(** The fields of a [CdsConnection] that [encoding/json] sees: only the
    exported ones, [PeerAddr] and [Connect]. *)
Definition JsonView := gmap string (option (string * Time)).

Class Collaborators := {
  (** model.Proxy, xdsapi.Cluster and types.Any *)
  Proxy : Type;
  Cluster : Type;
  Any : Type;
  (** [nt.ID] *)
  Proxy_ID : Proxy → string;
  (** model.ParseServiceNode *)
  ParseServiceNode : string → Proxy + error;
  (** connectionID, defined next to the endpoint discovery service *)
  connectionID : string → string;
  (** types.MarshalAny: a nil pointer ([None]) when marshalling fails *)
  MarshalAny : Cluster → option Any;
  (** the type URL of clusters *)
  clusterType : string;
  (** json.Marshal on the connection map *)
  json_Marshal : JsonView → string * option error;
  (** the order in which [range] visits a map: unspecified, some
      enumeration of the entries *)
  rangeOrder : gmap string loc → list (string * loc);
  rangeOrder_perm : ∀ m, rangeOrder m ≡ₚ map_to_list m
}.

Section CDS.
Context `{Collaborators}.

(** ** Data model *)

(** CdsConnection: a streaming grpc connection from an envoy server. *)
Record CdsConnection := MkCdsConnection {
  PeerAddr : string;
  Connect : Time;
  modelNode : option Proxy;
  pushChannel : Chan bool
}.

Definition set_modelNode (p : option Proxy) (c : CdsConnection) : CdsConnection :=
  MkCdsConnection (PeerAddr c) (Connect c) p (pushChannel c).

Definition set_pushChannel (ch : Chan bool) (c : CdsConnection) : CdsConnection :=
  MkCdsConnection (PeerAddr c) (Connect c) (modelNode c) ch.

(** The package-level variables [cdsDebug] and [cdsConnections], and the
    heap of connection objects the map points into. *)
Record World := MkWorld {
  cdsDebug : bool;
  cdsConnections : gmap string loc;
  heap : gmap loc CdsConnection
}.

Definition set_cdsDebug (b : bool) (w : World) : World :=
  MkWorld b (cdsConnections w) (heap w).

Definition set_heap (h : gmap loc CdsConnection) (w : World) : World :=
  MkWorld (cdsDebug w) (cdsConnections w) h.

(** The [var] block of the package: [cdsDebug] is on unless the
    environment variable PILOT_DEBUG_CDS is "0", and the map is empty. *)
Definition init_world (PILOT_DEBUG_CDS : string) : World :=
  MkWorld (bool_decide (PILOT_DEBUG_CDS ≠ "0")) ∅ ∅.

(** How a call ends: it returns, it stays blocked on a channel (the world
    is the one reached when it blocks), or it panics. *)
Inductive outcome (A : Type) :=
  | Done (a : A)
  | Blocked (w : World)
  | Panicked (w : World).
Arguments Done {A} _.
Arguments Blocked {A} _.
Arguments Panicked {A} _.

Definition obind {A B} (m : outcome A) (k : A → outcome B) : outcome B :=
  match m with
  | Done a => k a
  | Blocked w => Blocked w
  | Panicked w => Panicked w
  end.

(** ** The connection registry *)

(** [removeCdsCon]: the body of the function is empty. *)
Definition removeCdsCon (node : string) (connection : loc) (w : World) : World := w.

(** ** cdsPushAll

    The copy of the map is taken under [cdsConnectionsMux] and is one atomic
    step here; the sends that follow run without the lock. *)

(** [for k, v := range cdsConnections { tmpMap[k] = v }] *)
Definition copyMap (m : gmap string loc) : gmap string loc :=
  foldl (λ tmpMap kv, <[kv.1 := kv.2]> tmpMap) ∅ (rangeOrder m).

(** [for _, cdsCon := range tmpMap { cdsCon.pushChannel <- true }] *)
Fixpoint pushLoop (cs : list (string * loc)) (w : World) : outcome World :=
  match cs with
  | [] => Done w
  | (_, cdsCon) :: rest =>
      match heap w !! cdsCon with
      | None => Panicked w
      | Some c =>
          match chan_send true (pushChannel c) with
          | SendOk ch => pushLoop rest (set_heap (<[cdsCon := set_pushChannel ch c]> (heap w)) w)
          | SendBlocks => Blocked w
          | SendPanics => Panicked w
          end
      end
  end.

Definition cdsPushAll (w : World) : outcome World :=
  let tmpMap := copyMap (cdsConnections w) in
  pushLoop (rangeOrder tmpMap) w.

(** [n] broadcast triggers in a row while no handler runs: a trigger that
    blocks stays parked at its channel and the next trigger finds the world
    it left. *)
Definition trigger (w : World) : World :=
  match cdsPushAll w with
  | Done w' => w'
  | Blocked w' => w'
  | Panicked w' => w'
  end.

Fixpoint triggers (n : nat) (w : World) : World :=
  match n with
  | O => w
  | S n' => triggers n' (trigger w)
  end.

(** ** Cdsz *)

Definition jsonView (w : World) : JsonView :=
  (λ c, (λ con, (PeerAddr con, Connect con)) <$> heap w !! c) <$> cdsConnections w.

(** [Cdsz(w, req)]: [rw] collects what is written to the response writer,
    [form] is [req.Form] after [ParseForm]. *)
Definition Cdsz (w : World) (rw : list string) (form : gmap string (list string))
  : outcome (World * list string) :=
  if decide (Form_Get form "debug" ≠ "") then
    Done (set_cdsDebug (bool_decide (Form_Get form "debug" = "1")) w, rw)
  else
    obind (if decide (Form_Get form "push" ≠ "") then cdsPushAll w else Done w)
      (λ w1,
         match json_Marshal (jsonView w1) with
         | (_, Some err) => Done (w1, (rw ++ [error_Error err])%list)
         | (data, None) => Done (w1, (rw ++ [data])%list)
         end).

(** ** FetchClusters *)

Record DiscoveryResponse := MkDiscoveryResponse {
  TypeUrl : string;
  VersionInfo : string;
  Nonce : string;
  Resources : list Any
}.

(** core.Node and the status carried by a rejected acknowledgement *)
Record Node := MkNode { Id : string }.

Record DiscoveryRequest := MkDiscoveryRequest {
  req_Node : option Node;
  req_ErrorDetail : option string;
  req_VersionInfo : string;
  req_ResponseNonce : string
}.

Definition FetchClusters (ctx : unit) (req : option DiscoveryRequest)
  : option DiscoveryResponse * option error :=
  (None, Some (errors_New "not implemented")).

(** ** con.clusters *)

(** The loop over [response]: [types.MarshalAny] yields a nil pointer on
    failure and [*cc] then panics ([None]). *)
Fixpoint marshalAll (response : list Cluster) : option (list Any) :=
  match response with
  | [] => Some []
  | c :: rest =>
      match MarshalAny c with
      | None => None
      | Some cc => (cons cc) <$> marshalAll rest
      end
  end.

(** [versionInfo()] and [nonce()] read the clock: their values come with
    the call. *)
Definition clusters (version nonce : string) (response : list Cluster)
  : option DiscoveryResponse :=
  MkDiscoveryResponse clusterType version nonce <$> marshalAll response.

(** ** StreamClusters *)

(** The log lines of the handler, by call site. *)
Inductive LogLine :=
  | Errorf_close (node peerAddr : string) (err : error)
  | Warnf_ack_error (peerAddr id : string) (req : DiscoveryRequest)
  | Infof_ack (req : DiscoveryRequest)
  | Infof_req (node peerAddr : string) (req : DiscoveryRequest)
  | Warnf_send_failure (err : error)
  | Infof_push (node peerAddr : string) (rawClusters : list Cluster).

(** What a stream does that is visible outside it, in order. *)
Inductive Event :=
  | Logged (l : LogLine)
  | BuildClustersCall (proxy : Proxy)
  | StreamSend (response : DiscoveryResponse) (err : option error).

(** What the environment answers during one iteration of the main loop. *)
Record Oracle := MkOracle {
  build_result : list Cluster * option error;   (* BuildClusters(s.env, _) *)
  version_now : string;                         (* versionInfo() *)
  nonce_now : string;                           (* nonce() *)
  send_error : option error                     (* stream.Send(_) *)
}.

Inductive Handler :=
  | Running
  | Returned (err : option error)
  | Crashed.                        (* nil pointer dereference *)

(** Where the reader goroutine stands. *)
Inductive ReaderPc :=
  | InRecv                              (* in [stream.Recv()] *)
  | InSend (req : DiscoveryRequest)     (* in [reqChannel <- req] *)
  | ReaderDone.                         (* returned; reqChannel is closed *)

(** The variables of one call of [StreamClusters], shared by its two
    goroutines, with the world around them. *)
Record Stream := MkStream {
  world : World;
  peerAddr : string;
  con : loc;
  node : string;
  initialRequestReceived : bool;
  receiveError : option error;
  reqChannel : Chan DiscoveryRequest;
  reader : ReaderPc;
  handler : Handler;
  trace : list Event
}.

Definition with_world (w : World) (s : Stream) : Stream :=
  MkStream w (peerAddr s) (con s) (node s) (initialRequestReceived s)
    (receiveError s) (reqChannel s) (reader s) (handler s) (trace s).
Definition with_node (n : string) (s : Stream) : Stream :=
  MkStream (world s) (peerAddr s) (con s) n (initialRequestReceived s)
    (receiveError s) (reqChannel s) (reader s) (handler s) (trace s).
Definition with_initialRequestReceived (b : bool) (s : Stream) : Stream :=
  MkStream (world s) (peerAddr s) (con s) (node s) b
    (receiveError s) (reqChannel s) (reader s) (handler s) (trace s).
Definition with_receiveError (e : option error) (s : Stream) : Stream :=
  MkStream (world s) (peerAddr s) (con s) (node s) (initialRequestReceived s)
    e (reqChannel s) (reader s) (handler s) (trace s).
Definition with_reqChannel (ch : Chan DiscoveryRequest) (s : Stream) : Stream :=
  MkStream (world s) (peerAddr s) (con s) (node s) (initialRequestReceived s)
    (receiveError s) ch (reader s) (handler s) (trace s).
Definition with_reader (r : ReaderPc) (s : Stream) : Stream :=
  MkStream (world s) (peerAddr s) (con s) (node s) (initialRequestReceived s)
    (receiveError s) (reqChannel s) r (handler s) (trace s).
Definition with_handler (h : Handler) (s : Stream) : Stream :=
  MkStream (world s) (peerAddr s) (con s) (node s) (initialRequestReceived s)
    (receiveError s) (reqChannel s) (reader s) h (trace s).
Definition emit (e : Event) (s : Stream) : Stream :=
  MkStream (world s) (peerAddr s) (con s) (node s) (initialRequestReceived s)
    (receiveError s) (reqChannel s) (reader s) (handler s) (trace s ++ [e])%list.

Definition with_trace (t : list Event) (s : Stream) : Stream :=
  MkStream (world s) (peerAddr s) (con s) (node s) (initialRequestReceived s)
    (receiveError s) (reqChannel s) (reader s) (handler s) t.

(** [*con] *)
Definition the_con (s : Stream) : option CdsConnection := heap (world s) !! con s.

(** [con.f = v] *)
Definition update_con (f : CdsConnection → CdsConnection) (s : Stream) : Stream :=
  with_world (set_heap (alter f (con s) (heap (world s))) (world s)) s.

(** The prologue of [StreamClusters], up to the [go] statement: the
    connection is allocated; nothing else is done with it. *)
Definition StreamClusters_open (w : World) (peer : option string) (now : Time) : Stream :=
  let peerAddr := default "Unknown peer address" peer in
  let c := fresh (dom (heap w)) in
  MkStream
    (set_heap (<[c := MkCdsConnection peerAddr now None (make_chan bool 1)]> (heap w)) w)
    peerAddr c "" false None (make_chan DiscoveryRequest 1) InRecv Running [].

(** *** The reader goroutine *)

(** One [stream.Recv()] that returns [r]. *)
Definition readerRecv (r : DiscoveryRequest + error) (s : Stream) : Stream :=
  match r with
  | inr err =>
      let s1 := emit (Logged (Errorf_close (node s) (peerAddr s) err)) s in
      let s2 := with_world (removeCdsCon (node s1) (con s1) (world s1)) s1 in
      let s3 := if decide (status_Code (Some err) = Canceled ∨ err = io_EOF)
                then s2
                else with_receiveError (Some err) s2 in
      (* return, and with it the deferred close(reqChannel) *)
      with_reader ReaderDone (with_reqChannel (chan_close (reqChannel s3)) s3)
  | inl req => with_reader (InSend req) s
  end.

(** [reqChannel <- req]: completes when the buffer has room. *)
Definition readerSend (s : Stream) : Stream :=
  match reader s with
  | InSend req =>
      match chan_send req (reqChannel s) with
      | SendOk ch => with_reader InRecv (with_reqChannel ch s)
      | _ => s
      end
  | _ => s
  end.

(** *** The main loop *)

(** From [BuildClusters] to the end of the loop body. *)
Definition pushResponse (o : Oracle) (s : Stream) : Stream :=
  match the_con s ≫= modelNode with
  | None => with_handler Crashed s          (* [*con.modelNode], nil *)
  | Some proxy =>
      let rawClusters := (build_result o).1 in
      let s1 := emit (BuildClustersCall proxy) s in
      match clusters (version_now o) (nonce_now o) rawClusters with
      | None => with_handler Crashed s1     (* [*cc], nil *)
      | Some response =>
          let s2 := emit (StreamSend response (send_error o)) s1 in
          match send_error o with
          | Some err =>
              with_handler (Returned (Some err)) (emit (Logged (Warnf_send_failure err)) s2)
          | None =>
              if cdsDebug (world s2)
              then emit (Logged (Infof_push (node s2) (peerAddr s2) rawClusters)) s2
              else s2
          end
      end
  end.

(** The case [discReq, ok = <-reqChannel] with [ok] true. *)
Definition requestBranch (o : Oracle) (discReq : DiscoveryRequest) (s : Stream) : Stream :=
  let s1 := match req_Node discReq with
            | Some n => if decide (node s = "") then with_node (connectionID (Id n)) s else s
            | None => s
            end in
  match req_Node discReq with
  | None => with_handler Crashed s1         (* [discReq.Node.Id], nil *)
  | Some n =>
      match ParseServiceNode (Id n) with
      | inr err => with_handler (Returned (Some err)) s1
      | inl nt =>
          let s2 := update_con (set_modelNode (Some nt)) s1 in
          if initialRequestReceived s2 then
            let s3 := match req_ErrorDetail discReq with
                      | Some _ => emit (Logged (Warnf_ack_error (peerAddr s2) (Proxy_ID nt) discReq)) s2
                      | None => s2
                      end in
            if cdsDebug (world s3) then emit (Logged (Infof_ack discReq)) s3 else s3
          else
            let s3 := with_initialRequestReceived true s2 in
            let s4 := if cdsDebug (world s3)
                      then emit (Logged (Infof_req (node s3) (peerAddr s3) discReq)) s3
                      else s3 in
            pushResponse o s4
      end
  end.

(** [select] takes the case of [reqChannel]. *)
Definition selectReq (o : Oracle) (s : Stream) : Stream :=
  match chan_recv (reqChannel s) with
  | RecvBlocks => s
  | RecvClosed => with_handler (Returned (receiveError s)) s
  | RecvVal discReq ch => requestBranch o discReq (with_reqChannel ch s)
  end.

(** [select] takes the case of [con.pushChannel]. *)
Definition selectPush (o : Oracle) (s : Stream) : Stream :=
  match the_con s with
  | Some c =>
      match chan_recv (pushChannel c) with
      | RecvVal _ ch => pushResponse o (update_con (set_pushChannel ch) s)
      | _ => s
      end
  | None => s
  end.

(** *** Interleavings *)

(** One scheduling decision.  An action that is not enabled leaves the
    stream as it is. *)
Inductive Action :=
  | Recv (r : DiscoveryRequest + error)   (* reader: Recv returns *)
  | Enqueue                               (* reader: the send on reqChannel *)
  | SelectReq (o : Oracle)                (* main loop: a request or the close *)
  | SelectPush (o : Oracle)               (* main loop: a push signal *)
  | Signal                                (* a holder of [con] sends on its pushChannel *)
  | Broadcast                             (* some goroutine runs cdsPushAll *)
  | SetDebug (b : bool).                  (* Cdsz sets cdsDebug *)

Definition signal (s : Stream) : Stream :=
  match the_con s with
  | Some c =>
      match chan_send true (pushChannel c) with
      | SendOk ch => update_con (set_pushChannel ch) s
      | _ => s
      end
  | None => s
  end.

Definition step (a : Action) (s : Stream) : Stream :=
  match a with
  | Recv r => match reader s with InRecv => readerRecv r s | _ => s end
  | Enqueue => readerSend s
  | SelectReq o => match handler s with Running => selectReq o s | _ => s end
  | SelectPush o => match handler s with Running => selectPush o s | _ => s end
  | Signal => signal s
  | Broadcast => with_world (trigger (world s)) s
  | SetDebug b => with_world (set_cdsDebug b (world s)) s
  end.

Definition run (acts : list Action) (s : Stream) : Stream :=
  foldl (λ s a, step a s) s acts.

(** A call of [StreamClusters]: the stream is opened, then its two
    goroutines and the environment take the steps of [schedule]. *)
Definition StreamClusters (w : World) (peer : option string) (now : Time)
    (schedule : list Action) : Stream :=
  run schedule (StreamClusters_open w peer now).

(** Projections of the trace. *)
Definition sends (s : Stream) : list DiscoveryResponse :=
  omap (λ e, match e with StreamSend r _ => Some r | _ => None end) (trace s).
Definition builds (s : Stream) : list Proxy :=
  omap (λ e, match e with BuildClustersCall p => Some p | _ => None end) (trace s).
Definition logs (s : Stream) : list LogLine :=
  omap (λ e, match e with Logged l => Some l | _ => None end) (trace s).

End CDS.

Arguments Done {_ A} _.
Arguments Blocked {_ A} _.
Arguments Panicked {_ A} _.

(** ** Specification predicates *)

Section Predicates.
Context `{Collaborators}.

(** Every push channel was made by [make(chan bool, 1)] and buffers at most
    one signal. *)
Definition push_channels_ok (w : World) : Prop :=
  ∀ c conn, heap w !! c = Some conn →
    chan_cap (pushChannel conn) = 1 ∧ pending (pushChannel conn) ≤ 1.

(** The connection at [c] is reachable from the registry. *)
Definition registered (c : loc) (w : World) : Prop :=
  ∃ k, cdsConnections w !! k = Some c.

(** What the handler returns once the reader has failed with [err]. *)
Definition terminal_error (err : error) : option error :=
  if decide (status_Code (Some err) = Canceled ∨ err = io_EOF) then None else Some err.

(** The reader is still at work: the request channel is the open channel
    of capacity one and no error has been recorded. *)
Definition reader_alive (s : Stream) : Prop :=
  reader s ≠ ReaderDone ∧ chan_closed (reqChannel s) = false ∧
  chan_cap (reqChannel s) = 1 ∧ length (chan_buf (reqChannel s)) ≤ 1 ∧
  receiveError s = None.

(** The reader has returned after [stream.Recv] failed with [err]. *)
Definition reader_failed (err : error) (s : Stream) : Prop :=
  reader s = ReaderDone ∧ chan_closed (reqChannel s) = true ∧
  chan_cap (reqChannel s) = 1 ∧ length (chan_buf (reqChannel s)) ≤ 1 ∧
  receiveError s = terminal_error err.

(** The identity attached to the connection of the stream, if any. *)
Definition identity (s : Stream) : option Proxy := the_con s ≫= modelNode.

(** The answer of the environment with the error of the generator erased. *)
Definition without_build_error (o : Oracle) : Oracle :=
  MkOracle ((build_result o).1, None) (version_now o) (nonce_now o) (send_error o).

End Predicates.

(** ** A concrete set of collaborators

    Service nodes are accepted when non-empty, clusters marshal when
    non-empty, and [range] visits maps in the order of [map_to_list]. *)

#[global] Instance demo : Collaborators := {|
  Proxy := string;
  Cluster := string;
  Any := string;
  Proxy_ID := λ p, p;
  ParseServiceNode := λ s,
    if decide (s = "") then inr (ErrorString "missing parts in the service node") else inl s;
  connectionID := λ s, s +:+ "-1";
  MarshalAny := λ c, if decide (c = "") then None else Some c;
  clusterType := "type.googleapis.com/envoy.api.v2.Cluster";
  json_Marshal := λ v, ("{}", None);
  rangeOrder := map_to_list;
  rangeOrder_perm := λ m, reflexivity (map_to_list m)
|}.

Module Inputs.

(** The package right after start-up, with PILOT_DEBUG_CDS=0. *)
Definition empty_world : World := init_world "0".

(** One registered connection, no signal pending. *)
Definition one_idle : World :=
  MkWorld false {[ "sidecar~a-1" := 1%positive ]}
    {[ 1%positive := MkCdsConnection "10.0.0.1:5000" 0%Z (Some "sidecar~a") (make_chan bool 1) ]}.

(** The same with a signal pending. *)
Definition one_pending : World :=
  MkWorld false {[ "sidecar~a-1" := 1%positive ]}
    {[ 1%positive := MkCdsConnection "10.0.0.1:5000" 0%Z (Some "sidecar~a") (MkChan 1 [true] false) ]}.

Definition request (id : string) (detail : option string) : DiscoveryRequest :=
  MkDiscoveryRequest (Some (MkNode id)) detail "" "".

Definition answer : Oracle := MkOracle (["outbound|80||b.local"], None) "v1" "n1" None.

Definition producer_fails : Oracle :=
  MkOracle ([], Some (ErrorString "generator failed")) "v2" "n2" None.

(** A stream that has just been opened in the empty world. *)
Definition opened : Stream := StreamClusters empty_world (Some "10.0.0.1:5000") 0%Z [].

(** The reader receives the initial request, hands it to the main loop,
    and the main loop answers it. *)
Definition initial_exchange : list Action :=
  [Recv (inl (request "sidecar~a" None)); Enqueue; SelectReq answer].

(** The same stream once its initial request has been answered. *)
Definition active : Stream :=
  StreamClusters empty_world (Some "10.0.0.1:5000") 0%Z initial_exchange.

Definition transport_error : error := StatusError Unavailable "transport is closing".

End Inputs.

(** ** Further predicates and inputs *)

Section Wellformed.
Context `{Collaborators}.

(** Every registered connection is allocated: the map holds no nil pointer. *)
Definition world_wf (w : World) : Prop :=
  ∀ k c, cdsConnections w !! k = Some c → is_Some (heap w !! c).

(** The push channel of the connection of a stream. *)
Definition push_channel_of (s : Stream) : option (Chan bool) := pushChannel <$> the_con s.

(** Reading a trace from its start, [pending] telling whether a call of
    the generator still waits for its send: a call is in order only when
    none is pending, a send only when one is, a log line anywhere. *)
Fixpoint calls_then_sends (pending : bool) (t : list Event) : bool :=
  match t with
  | [] => true
  | Logged _ :: t' => calls_then_sends pending t'
  | BuildClustersCall _ :: t' => negb pending && calls_then_sends true t'
  | StreamSend _ _ :: t' => pending && calls_then_sends false t'
  end.

(** Whether a call is pending at the end of the trace. *)
Fixpoint pending_after (pending : bool) (t : list Event) : bool :=
  match t with
  | [] => pending
  | Logged _ :: t' => pending_after pending t'
  | BuildClustersCall _ :: t' => pending_after true t'
  | StreamSend _ _ :: t' => pending_after false t'
  end.

(** What the handler returns for a [Recv] that failed with [err], read off
    the test [status.Code(err) == codes.Canceled || err == io.EOF]. *)
Definition read_failure_result (err : error) : option error :=
  match err with
  | io_EOF => None
  | StatusError Canceled _ => None
  | _ => Some err
  end.

End Wellformed.

Module MoreInputs.

(** Two registered connections, no signal pending. *)
Definition two_idle : World :=
  MkWorld true
    {[ "sidecar~a-1" := 1%positive; "sidecar~b-2" := 2%positive ]}
    {[ 1%positive := MkCdsConnection "10.0.0.1:5000" 0%Z (Some "sidecar~a") (make_chan bool 1);
       2%positive := MkCdsConnection "10.0.0.2:5000" 7%Z (Some "sidecar~b") (make_chan bool 1) ]}.

Definition send_fails : Oracle :=
  MkOracle (["outbound|80||b.local"], None) "v3" "n3"
    (Some (StatusError Unavailable "transport is closing")).

(** The stream [Inputs.active] after a push whose send failed. *)
Definition returned : Stream := run [Signal; SelectPush send_fails] Inputs.active.

(** A request that carries no node. *)
Definition no_node : DiscoveryRequest := MkDiscoveryRequest None None "" "".

(** The generator answers and the send fails with an error of its own. *)
Definition send_breaks : Oracle :=
  MkOracle (["outbound|80||b.local"], None) "v4" "n4" (Some (ErrorString "stream is closed")).

(** A request whose node does not parse is read and buffered, then the
    client closes the stream, then the main loop takes the request case. *)
Definition eof_behind_bad_request : list Action :=
  [Recv (inl (Inputs.request "" None)); Enqueue; Recv (inr io_EOF);
   SelectReq Inputs.answer].

(** The initial request is read and buffered, then the transport fails,
    then the main loop takes the request case and its send fails. *)
Definition failure_behind_initial_request : list Action :=
  [Recv (inl (Inputs.request "sidecar~a" None)); Enqueue;
   Recv (inr Inputs.transport_error); SelectReq send_breaks].

(** A later request, a signal and a broadcast, all after the handler has
    stopped. *)
Definition aftermath : list Action :=
  [Recv (inl (Inputs.request "sidecar~b" None)); Enqueue; SelectReq Inputs.answer;
   Signal; Broadcast; SelectPush Inputs.answer].

(** The initial exchange followed by broadcasts, acknowledgements and
    attempts of the main loop to take a push signal. *)
Definition busy_schedule : list Action :=
  [Recv (inl (Inputs.request "sidecar~a" None)); Enqueue; SelectReq Inputs.answer;
   Broadcast; SelectPush Inputs.answer;
   Recv (inl (Inputs.request "sidecar~a" None)); Enqueue; SelectReq Inputs.answer;
   Broadcast; SelectPush Inputs.answer].

(** The connection of [Inputs.active] with a signal on its channel. *)
Definition signalled_con : CdsConnection :=
  MkCdsConnection "10.0.0.1:5000" 0%Z (Some "sidecar~a") (MkChan 1 [true] false).

(** [two_idle] with a signal pending on both connections. *)
Definition two_pending : World :=
  MkWorld true
    {[ "sidecar~a-1" := 1%positive; "sidecar~b-2" := 2%positive ]}
    {[ 1%positive := MkCdsConnection "10.0.0.1:5000" 0%Z (Some "sidecar~a") (MkChan 1 [true] false);
       2%positive := MkCdsConnection "10.0.0.2:5000" 7%Z (Some "sidecar~b") (MkChan 1 [true] false) ]}.

End MoreInputs.

(** ** Properties of the broadcast *)

Section Broadcast.
Context `{Collaborators}.

Lemma foldl_insert_list_to_map (l : list (string * loc)) (acc : gmap string loc) :
  foldl (λ tmpMap kv, <[kv.1 := kv.2]> tmpMap) acc l = list_to_map (reverse l) ∪ acc.
Proof.
  revert acc. induction l as [|[k v] l IH]; intros acc; simpl.
  - by rewrite (left_id_L ∅ (∪)).
  - rewrite IH, reverse_cons, list_to_map_app. simpl.
    rewrite insert_empty, <-(assoc_L (∪)). f_equal.
    by rewrite insert_union_singleton_l.
Qed.

(** The temporary map is a copy of the registry, whatever the order. *)
Lemma copyMap_id (m : gmap string loc) : copyMap m = m.
Proof.
  unfold copyMap. rewrite foldl_insert_list_to_map, (right_id_L ∅ (∪)).
  rewrite <-(list_to_map_to_list m) at 2.
  apply list_to_map_proper.
  - rewrite fmap_reverse, reverse_Permutation, (rangeOrder_perm m).
    apply NoDup_fst_map_to_list.
  - rewrite reverse_Permutation. apply rangeOrder_perm.
Qed.

Lemma elem_of_rangeOrder (m : gmap string loc) k c :
  (k, c) ∈ rangeOrder m ↔ m !! k = Some c.
Proof. rewrite (rangeOrder_perm m). apply elem_of_map_to_list. Qed.

Lemma chan_send_ok {A} (v : A) (ch ch' : Chan A) :
  chan_send v ch = SendOk ch' →
  chan_closed ch = false ∧ length (chan_buf ch) < chan_cap ch ∧
  ch' = MkChan (chan_cap ch) (chan_buf ch ++ [v]) false.
Proof.
  unfold chan_send. destruct (chan_closed ch); [done|].
  case_decide; [|done]. intros [= <-]. done.
Qed.

Lemma chan_send_full {A} (v : A) (ch : Chan A) :
  chan_cap ch ≤ length (chan_buf ch) → ∀ ch', chan_send v ch ≠ SendOk ch'.
Proof. intros Hfull ch' Hs. apply chan_send_ok in Hs as (_ & ? & _). lia. Qed.

(** The loop only touches push channels, and never overfills one. *)
Lemma pushLoop_inv (cs : list (string * loc)) (w : World) :
  push_channels_ok w →
  ∀ w', (pushLoop cs w = Done w' ∨ pushLoop cs w = Blocked w' ∨ pushLoop cs w = Panicked w') →
  push_channels_ok w' ∧ cdsConnections w' = cdsConnections w ∧ cdsDebug w' = cdsDebug w.
Proof.
  revert w. induction cs as [|[k c] cs IH]; intros w Hok w' Hr; simpl in Hr.
  - destruct Hr as [[= <-]|[|]]; done.
  - destruct (heap w !! c) as [conn|] eqn:Hc.
    2:{ destruct Hr as [|[|[= <-]]]; done. }
    destruct (chan_send true (pushChannel conn)) as [ch| |] eqn:Hs.
    + apply chan_send_ok in Hs as (Hcl & Hlt & ->).
      apply IH in Hr; [done|].
      intros c' conn'. simpl. destruct (decide (c' = c)) as [->|Hne].
      * rewrite lookup_insert_eq. intros [= <-]. simpl.
        destruct (Hok c conn Hc) as [Hcap Hp]. unfold pending in *. simpl.
        rewrite length_app. simpl. split; [done|lia].
      * rewrite lookup_insert_ne by done. apply Hok.
    + destruct Hr as [|[[= <-]|]]; done.
    + destruct Hr as [|[|[= <-]]]; done.
Qed.

(** A broadcast that completes leaves full channels as they are... *)
Lemma pushLoop_done_frame (cs : list (string * loc)) (w w' : World) c conn :
  pushLoop cs w = Done w' →
  heap w !! c = Some conn →
  chan_cap (pushChannel conn) ≤ pending (pushChannel conn) →
  heap w' !! c = Some conn ∧ (∀ k, (k, c) ∉ cs).
Proof.
  revert w. induction cs as [|[k c0] cs IH]; intros w Hr Hc Hfull; simpl in Hr.
  - injection Hr as <-. split; [done|]. intros k Hin. by apply elem_of_nil in Hin.
  - destruct (heap w !! c0) as [conn0|] eqn:Hc0; [|done].
    destruct (chan_send true (pushChannel conn0)) as [ch| |] eqn:Hs; [|done|done].
    destruct (decide (c0 = c)) as [->|Hne].
    + rewrite Hc in Hc0. injection Hc0 as <-.
      by apply chan_send_full in Hs.
    + apply IH in Hr as [Hr1 Hr2]; [|simpl; by rewrite lookup_insert_ne|done].
      split; [done|]. intros k' Hin. apply elem_of_cons in Hin as [[= _ ?]|Hin]; [done|].
      by apply (Hr2 k').
Qed.

(** ... and has put a signal on the channel of every connection it visited. *)
Lemma pushLoop_done_signals (cs : list (string * loc)) (w w' : World) :
  push_channels_ok w →
  pushLoop cs w = Done w' →
  ∀ k c, (k, c) ∈ cs →
    ∃ conn conn', heap w !! c = Some conn ∧ chan_buf (pushChannel conn) = [] ∧
                  heap w' !! c = Some conn' ∧ chan_buf (pushChannel conn') = [true].
Proof.
  revert w. induction cs as [|[k0 c0] cs IH]; intros w Hok Hr k c Hin; simpl in Hr.
  - by apply elem_of_nil in Hin.
  - destruct (heap w !! c0) as [conn0|] eqn:Hc0; [|done].
    destruct (chan_send true (pushChannel conn0)) as [ch| |] eqn:Hs; [|done|done].
    apply chan_send_ok in Hs as (Hcl & Hlt & ->).
    destruct (Hok c0 conn0 Hc0) as [Hcap _]. rewrite Hcap in Hlt.
    assert (chan_buf (pushChannel conn0) = []) as Hnil.
    { destruct (chan_buf (pushChannel conn0)); [done|simpl in Hlt; lia]. }
    rewrite Hnil in Hr. simpl in Hr.
    set (conn1 := set_pushChannel (MkChan (chan_cap (pushChannel conn0)) [true] false) conn0) in *.
    set (w1 := set_heap (<[c0:=conn1]> (heap w)) w) in *.
    assert (heap w1 !! c0 = Some conn1) as Hc1 by (simpl; apply lookup_insert_eq).
    destruct (pushLoop_done_frame cs w1 w' c0 conn1 Hr Hc1) as [Hkeep Hfresh].
    { unfold pending. simpl. lia. }
    apply elem_of_cons in Hin as [[= -> ->]|Hin].
    + exists conn0, conn1. done.
    + assert (c ≠ c0) as Hne by (intros ->; by apply (Hfresh k)).
      assert (push_channels_ok w1) as Hok1.
      { intros c' conn'. simpl. destruct (decide (c' = c0)) as [->|Hne'].
        - rewrite lookup_insert_eq. intros [= <-]. unfold pending. simpl. split; [done|lia].
        - rewrite lookup_insert_ne by done. apply Hok. }
      destruct (IH w1 Hok1 Hr k c Hin) as (conn & conn' & H1 & H2 & H3 & H4).
      exists conn, conn'. simpl in H1. rewrite lookup_insert_ne in H1 by done. done.
Qed.

(** A connection whose channel is full stops the loop: it is not skipped. *)
Lemma pushLoop_full_not_done (cs : list (string * loc)) (w : World) k c conn :
  (k, c) ∈ cs →
  heap w !! c = Some conn →
  chan_cap (pushChannel conn) ≤ pending (pushChannel conn) →
  ∀ w', pushLoop cs w ≠ Done w'.
Proof.
  intros Hin Hc Hfull w' Hr.
  destruct (pushLoop_done_frame cs w w' c conn Hr Hc Hfull) as [_ Hno].
  by apply (Hno k).
Qed.

(** When no two keys share a connection and every registered connection is
    allocated with an open, empty channel, the loop runs to its end. *)
Lemma pushLoop_idle_done (cs : list (string * loc)) (w : World) :
  NoDup (cs.*2) →
  (∀ k c, (k, c) ∈ cs →
     ∃ conn, heap w !! c = Some conn ∧ chan_closed (pushChannel conn) = false
             ∧ pending (pushChannel conn) < chan_cap (pushChannel conn)) →
  ∃ w', pushLoop cs w = Done w'.
Proof.
  revert w. induction cs as [|[k0 c0] cs IH]; intros w Hnd Hidle; simpl.
  - by eexists.
  - apply NoDup_cons in Hnd as [Hc0 Hnd].
    destruct (Hidle k0 c0) as (conn0 & Hl & Hcl & Hlt); [left|].
    rewrite Hl. unfold chan_send. rewrite Hcl.
    unfold pending in Hlt. rewrite decide_True by done.
    apply IH; [done|]. intros k c Hin.
    destruct (Hidle k c) as (conn & Hl' & Hcl' & Hlt'); [by right|].
    exists conn. simpl. rewrite lookup_insert_ne; [done|].
    intros ->. apply Hc0. apply list_elem_of_fmap. by exists (k, c).
Qed.

Lemma trigger_inv (w : World) :
  push_channels_ok w →
  push_channels_ok (trigger w) ∧ cdsConnections (trigger w) = cdsConnections w
  ∧ cdsDebug (trigger w) = cdsDebug w.
Proof.
  intros Hok. unfold trigger, cdsPushAll.
  destruct (pushLoop _ w) as [w'|w'|w'] eqn:Hr;
    eapply pushLoop_inv; eauto.
Qed.

Lemma triggers_inv (n : nat) (w : World) :
  push_channels_ok w → push_channels_ok (triggers n w).
Proof.
  revert w. induction n as [|n IH]; intros w Hok; simpl; [done|].
  apply IH. by apply trigger_inv.
Qed.

End Broadcast.

(** C1, as the code has it.  [cdsPushAll] copies the registry and then, for
    each connection of the copy, performs the blocking send
    [cdsCon.pushChannel <- true] on a channel of capacity one.
    - No connection ever has more than one signal buffered, after any
      number of triggers.
    - A broadcast that returns has put a signal on the channel of every
      registered connection, and each of those channels was empty before.
    - A registered connection whose channel already holds a signal is not
      skipped: the broadcast does not return (it waits on that channel).
    - When every registered connection is distinct and has an open, empty
      channel, the broadcast returns. *)
Theorem cdsPushAll_blocking_send `{Collaborators} (w : World) :
  push_channels_ok w →
  (∀ n, push_channels_ok (triggers n w)) ∧
  (∀ w', cdsPushAll w = Done w' →
     ∀ k c, cdsConnections w !! k = Some c →
       ∃ conn conn', heap w !! c = Some conn ∧ chan_buf (pushChannel conn) = [] ∧
                     heap w' !! c = Some conn' ∧ chan_buf (pushChannel conn') = [true]) ∧
  (∀ k c conn, cdsConnections w !! k = Some c → heap w !! c = Some conn →
     pending (pushChannel conn) = 1 → ∀ w', cdsPushAll w ≠ Done w') ∧
  ((∀ k1 k2 c, cdsConnections w !! k1 = Some c → cdsConnections w !! k2 = Some c → k1 = k2) →
   (∀ k c, cdsConnections w !! k = Some c →
      ∃ conn, heap w !! c = Some conn ∧ pushChannel conn = make_chan bool 1) →
   ∃ w', cdsPushAll w = Done w').
Proof.
  intros Hok. unfold cdsPushAll. rewrite copyMap_id.
  split; [|split; [|split]].
  - intros n. by apply triggers_inv.
  - intros w' Hr k c Hk.
    apply (pushLoop_done_signals _ w w' Hok Hr k c). by apply elem_of_rangeOrder.
  - intros k c conn Hk Hc Hp w'.
    apply (pushLoop_full_not_done _ w k c conn); [by apply elem_of_rangeOrder|done|].
    destruct (Hok c conn Hc) as [-> _]. lia.
  - intros Hinj Hidle. apply pushLoop_idle_done.
    + apply NoDup_fmap_2_strong.
      * intros [k1 c1] [k2 c2] H1 H2. simpl. intros <-.
        apply elem_of_rangeOrder in H1, H2. f_equal. by apply (Hinj k1 k2 c1).
      * rewrite (rangeOrder_perm (cdsConnections w)). apply NoDup_map_to_list.
    + intros k c Hin. apply elem_of_rangeOrder in Hin.
      destruct (Hidle k c Hin) as (conn & Hl & Hch). exists conn.
      rewrite Hch. unfold pending. simpl. repeat split; [done|lia].
Qed.

Lemma one_idle_ok : push_channels_ok Inputs.one_idle.
Proof.
  intros c conn Hc. unfold Inputs.one_idle in Hc. simpl in Hc.
  apply lookup_singleton_Some in Hc as [<- <-].
  unfold pending. simpl. split; [reflexivity|lia].
Defined.

(** The theorem above at a world with one idle connection. *)
Lemma cdsPushAll_blocking_send_witness :
  push_channels_ok Inputs.one_idle ∧
  (∀ n, push_channels_ok (triggers n Inputs.one_idle)).
Proof.
  split; [exact one_idle_ok|].
  exact (proj1 (cdsPushAll_blocking_send Inputs.one_idle one_idle_ok)).
Defined.

(** C1 as stated fails: with a signal already pending on the only
    registered connection, the broadcast does not skip the connection and
    return; it blocks.  Two triggers in a row: the first returns, the second
    never does. *)
Lemma cdsPushAll_blocks_when_pending :
  cdsPushAll Inputs.one_idle = Done Inputs.one_pending ∧
  cdsPushAll Inputs.one_pending = Blocked Inputs.one_pending.
Proof. split; vm_compute; reflexivity. Qed.

(** ** Properties of the registry, of FetchClusters and of Cdsz *)

(** C3.  [removeCdsCon] deletes the entry of a key only when the stored
    connection is the one passed: an entry that holds another connection is
    left in place.  In particular, after [A] and then [B] have been stored
    under the key [K], removing [A] leaves [B] in the registry.  (The
    function deletes nothing at all: its body is empty.) *)
Theorem removeCdsCon_keeps_other_connection `{Collaborators}
    (K : string) (A B : loc) (d : bool) (m : gmap string loc)
    (h : gmap loc CdsConnection) :
  A ≠ B →
  (∀ w, cdsConnections w !! K = Some B →
        cdsConnections (removeCdsCon K A w) !! K = Some B) ∧
  cdsConnections (removeCdsCon K A (MkWorld d (<[K:=B]> (<[K:=A]> m)) h)) !! K = Some B.
Proof.
  intros _. split.
  - intros w Hw. exact Hw.
  - unfold removeCdsCon. simpl. apply lookup_insert_eq.
Qed.

Lemma removeCdsCon_keeps_other_connection_witness :
  (1%positive : loc) ≠ 2%positive ∧
  cdsConnections
    (removeCdsCon "sidecar~a-1" 1%positive
       (MkWorld false (<["sidecar~a-1":=2%positive]> (<["sidecar~a-1":=1%positive]> ∅)) ∅))
    !! "sidecar~a-1" = Some 2%positive.
Proof.
  assert ((1%positive : loc) ≠ 2%positive) as Hne by (intros E; discriminate E).
  split; [exact Hne|].
  exact (proj2 (removeCdsCon_keeps_other_connection
                  "sidecar~a-1" 1%positive 2%positive false ∅ ∅ Hne)).
Defined.

(** C9.  [FetchClusters] answers every request with a nil response and the
    error "not implemented"; it never returns a response with a nil error. *)
Theorem FetchClusters_not_implemented `{Collaborators}
    (ctx : unit) (req : option DiscoveryRequest) :
  (FetchClusters ctx req).1 = None ∧
  (FetchClusters ctx req).2 = Some (ErrorString "not implemented") ∧
  error_Error (ErrorString "not implemented") = "not implemented".
Proof. repeat split. Qed.

(** C10.  A request to [Cdsz] whose [debug] parameter is non-empty sets
    [cdsDebug] to whether the value is "1" and returns: nothing is written,
    no channel and no registry entry changes, whatever [push] holds.  With
    an empty [debug], any non-empty [push] runs [cdsPushAll] before the
    snapshot is written, exactly as a request without parameters would
    write it. *)
Theorem Cdsz_debug_then_push `{Collaborators}
    (w : World) (rw : list string) (form : gmap string (list string)) :
  (Form_Get form "debug" ≠ "" →
     Cdsz w rw form =
       Done (MkWorld (bool_decide (Form_Get form "debug" = "1"))
                     (cdsConnections w) (heap w), rw)) ∧
  (Form_Get form "debug" = "" → Form_Get form "push" ≠ "" →
     Cdsz w rw form = obind (cdsPushAll w) (λ w1, Cdsz w1 rw ∅)).
Proof.
  split.
  - intros Hd. unfold Cdsz. by rewrite decide_True.
  - intros Hd Hp. unfold Cdsz.
    rewrite decide_False by (intros Hn; by apply Hn).
    rewrite decide_True by done.
    destruct (cdsPushAll w) as [w1|w1|w1]; simpl; [|done|done].
    unfold Form_Get. rewrite !lookup_empty. reflexivity.
Qed.

(** [debug=0&push=1]: the flag is cleared, the idle connection gets no
    signal and nothing is written; [push=yes]: the connection is signalled
    and the snapshot is written. *)
Lemma Cdsz_debug_then_push_witness :
  Cdsz Inputs.one_idle [] {[ "debug" := ["0"]; "push" := ["1"] ]}
    = Done (Inputs.one_idle, []) ∧
  Cdsz Inputs.one_idle [] {[ "push" := ["yes"] ]} = Done (Inputs.one_pending, ["{}"]).
Proof.
  split.
  - rewrite (proj1 (Cdsz_debug_then_push Inputs.one_idle []
                      {[ "debug" := ["0"]; "push" := ["1"] ]}))
      by (vm_compute; intros E; discriminate E).
    vm_compute. reflexivity.
  - rewrite (proj2 (Cdsz_debug_then_push Inputs.one_idle [] {[ "push" := ["yes"] ]}))
      by (vm_compute; (reflexivity || (intros E; discriminate E))).
    vm_compute. reflexivity.
Defined.

(** ** Properties of the stream handler *)

Section Handler.
Context `{Collaborators}.

Ltac stream_cases :=
  repeat match goal with
         | |- context [match ?x with _ => _ end] => destruct x eqn:?; simpl
         end.

Lemma omap_snoc {A B} (f : A → option B) (l : list A) (x : A) :
  omap f (l ++ [x]) = omap f l ++ match f x with Some y => [y] | None => [] end.
Proof. rewrite omap_app. simpl. by destruct (f x). Qed.

(** What the end of the loop body leaves alone. *)
Lemma pushResponse_frame (o : Oracle) (s : Stream) :
  let s' := pushResponse o s in
  world s' = world s ∧ peerAddr s' = peerAddr s ∧ con s' = con s ∧ node s' = node s ∧
  initialRequestReceived s' = initialRequestReceived s ∧
  receiveError s' = receiveError s ∧ reqChannel s' = reqChannel s ∧ reader s' = reader s.
Proof. unfold pushResponse. stream_cases; done. Qed.

Lemma requestBranch_frame (o : Oracle) (discReq : DiscoveryRequest) (s : Stream) :
  let s' := requestBranch o discReq s in
  cdsConnections (world s') = cdsConnections (world s) ∧
  cdsDebug (world s') = cdsDebug (world s) ∧
  peerAddr s' = peerAddr s ∧ con s' = con s ∧
  receiveError s' = receiveError s ∧ reqChannel s' = reqChannel s ∧ reader s' = reader s.
Proof.
  unfold requestBranch.
  destruct (req_Node discReq) as [n|]; [|done].
  destruct (ParseServiceNode (Id n)) as [nt|err].
  2:{ destruct (decide (node s = "")); done. }
  destruct (decide (node s = "")); simpl;
    destruct (initialRequestReceived s) eqn:Hinit; simpl;
    destruct (req_ErrorDetail discReq) eqn:Hdet; simpl;
    destruct (cdsDebug (world s)) eqn:Hdbg; simpl;
    try done; (
    match goal with
    | |- context [pushResponse ?o ?s0] =>
        pose proof (pushResponse_frame o s0) as (Hw & Hp & Hc & Hn & Hi & He & Hq & Hr);
        rewrite Hw, Hp, Hc, He, Hq, Hr
    end; done).
Qed.

Lemma pushResponse_without_build_error (o : Oracle) (s : Stream) :
  pushResponse (without_build_error o) s = pushResponse o s.
Proof. reflexivity. Qed.

Lemma requestBranch_without_build_error (o : Oracle) (discReq : DiscoveryRequest) (s : Stream) :
  requestBranch (without_build_error o) discReq s = requestBranch o discReq s.
Proof. reflexivity. Qed.

(** C4, as the code has it.  The error returned by [BuildClusters] is
    dropped ([rawClusters, _ := ...]): every step of the main loop is the
    step it would take had the generator returned the same clusters without
    an error, so nothing is logged about it.  Once the identity is attached
    and the clusters marshal, the generator is called with that identity, a
    response built from the returned clusters is sent, the registry and the
    connection are left as they were, and the handler goes on unless the
    send itself fails. *)
Theorem producer_error_is_discarded (o : Oracle) (s : Stream) (e : error) :
  (build_result o).2 = Some e →
  (∀ s0, step (SelectReq o) s0 = step (SelectReq (without_build_error o)) s0 ∧
         step (SelectPush o) s0 = step (SelectPush (without_build_error o)) s0) ∧
  (∀ proxy anys,
     identity s = Some proxy → marshalAll (build_result o).1 = Some anys →
     let s' := pushResponse o s in
     builds s' = builds s ++ [proxy] ∧
     sends s' = sends s ++ [MkDiscoveryResponse clusterType (version_now o) (nonce_now o) anys] ∧
     world s' = world s ∧
     handler s' = match send_error o with
                  | Some err => Returned (Some err)
                  | None => handler s
                  end).
Proof.
  intros _. split.
  - intros s0. split; reflexivity.
  - intros proxy anys Hid Hm. unfold identity in Hid. simpl.
    unfold pushResponse, clusters. rewrite Hid, Hm. simpl.
    unfold builds, sends.
    destruct (send_error o) as [err|]; simpl;
      [|destruct (cdsDebug (world s)); simpl];
      rewrite ?omap_snoc; simpl; rewrite ?(right_id_L [] (++)); done.
Qed.

(** C5, as the code has it.  [model.ParseServiceNode] runs on every request
    taken from [reqChannel], whether or not the initial request has been
    received: a node that does not parse ends the stream with the parse
    error and nothing is logged or sent, and a node that parses is attached
    to the connection in place of the identity it had. *)
Theorem identity_parsed_on_every_request
    (o : Oracle) (discReq : DiscoveryRequest) (n : Node) (s : Stream) :
  req_Node discReq = Some n →
  (∀ err, ParseServiceNode (Id n) = inr err →
     handler (requestBranch o discReq s) = Returned (Some err) ∧
     trace (requestBranch o discReq s) = trace s) ∧
  (∀ nt c, ParseServiceNode (Id n) = inl nt → the_con s = Some c →
     the_con (requestBranch o discReq s) = Some (set_modelNode (Some nt) c)).
Proof.
  intros Hn. split.
  - intros err Hp. unfold requestBranch. rewrite Hn, Hp.
    destruct (decide (node s = "")); done.
  - intros nt c Hp Hc. unfold requestBranch. rewrite Hn, Hp.
    assert (∀ s0, world s0 = world s → con s0 = con s →
                  the_con (update_con (set_modelNode (Some nt)) s0)
                  = Some (set_modelNode (Some nt) c)) as Hupd.
    { intros s0 Hw Hcon. unfold the_con, update_con. simpl.
      rewrite lookup_alter_eq, Hw, Hcon. unfold the_con in Hc. by rewrite Hc. }
    destruct (decide (node s = "")); simpl;
      destruct (initialRequestReceived s) eqn:Hinit; simpl;
      destruct (req_ErrorDetail discReq) eqn:Hdet; simpl;
      destruct (cdsDebug (world s)) eqn:Hdbg; simpl;
      try (by apply Hupd);
      (match goal with
       | |- context [pushResponse ?o ?s0] =>
           pose proof (pushResponse_frame o s0) as (Hw & _ & Hc' & _);
           unfold the_con; rewrite Hw, Hc'
       end; by apply Hupd).
Qed.

(** C7, as the code has it.  A request that arrives after the initial one
    and whose node parses keeps the handler in its loop: the generator is
    not called, nothing is sent, and the answers of the environment are not
    even consulted.  A warning is logged when the request carries an error
    detail and an info line when [cdsDebug] is set, nothing otherwise.  The
    error detail has no other effect: with any other detail the stream ends
    up in the same state, the trace apart. *)
Theorem acknowledgement_only_logged
    (o : Oracle) (discReq : DiscoveryRequest) (n : Node) (nt : Proxy) (s : Stream) :
  initialRequestReceived s = true →
  req_Node discReq = Some n →
  ParseServiceNode (Id n) = inl nt →
  let s' := requestBranch o discReq s in
  handler s' = handler s ∧ builds s' = builds s ∧ sends s' = sends s ∧
  logs s' = logs s
            ++ match req_ErrorDetail discReq with
               | Some _ => [Warnf_ack_error (peerAddr s) (Proxy_ID nt) discReq]
               | None => []
               end
            ++ (if cdsDebug (world s) then [Infof_ack discReq] else []) ∧
  (∀ o', requestBranch o' discReq s = s') ∧
  (∀ detail,
     with_trace [] (requestBranch o
                      (MkDiscoveryRequest (req_Node discReq) detail
                         (req_VersionInfo discReq) (req_ResponseNonce discReq)) s)
     = with_trace [] s').
Proof.
  intros Hinit Hn Hp. simpl. unfold requestBranch. simpl.
  rewrite Hn, Hp.
  assert (∀ s0, initialRequestReceived s0 = initialRequestReceived s →
                initialRequestReceived (update_con (set_modelNode (Some nt)) s0) = true)
    as Hi by (intros s0 E; simpl; by rewrite E).
  unfold builds, sends, logs.
  destruct (decide (node s = "")); simpl; rewrite Hinit; simpl;
    destruct (req_ErrorDetail discReq) eqn:Hdet; simpl;
    destruct (cdsDebug (world s)) eqn:Hdbg; simpl;
    rewrite ?omap_snoc; simpl; rewrite ?(right_id_L [] (++)), <-?(assoc_L (++));
    repeat split; try done;
    intros [d|]; simpl; rewrite Hdbg; done.
Qed.

End Handler.

(** *** The same at concrete streams *)

(** The stream [Inputs.active] is signalled and the generator fails. *)
Lemma producer_error_is_discarded_witness :
  (build_result Inputs.producer_fails).2 = Some (ErrorString "generator failed") ∧
  step (SelectPush Inputs.producer_fails) (step Signal Inputs.active)
  = step (SelectPush (without_build_error Inputs.producer_fails)) (step Signal Inputs.active).
Proof.
  split; [reflexivity|].
  exact (proj2 (proj1 (producer_error_is_discarded Inputs.producer_fails Inputs.active
                         (ErrorString "generator failed") eq_refl)
                  (step Signal Inputs.active))).
Defined.

(** C4 as stated fails: the generator returns an error on a push signal,
    and the handler still sends a response (with no resources) while the
    log stays as it was; the error is not logged. *)
Lemma producer_error_still_sends :
  let s := run [Signal; SelectPush Inputs.producer_fails] Inputs.active in
  (build_result Inputs.producer_fails).2 = Some (ErrorString "generator failed") ∧
  sends s = sends Inputs.active
            ++ [MkDiscoveryResponse "type.googleapis.com/envoy.api.v2.Cluster" "v2" "n2" []] ∧
  logs s = logs Inputs.active ∧
  handler s = Running.
Proof. vm_compute. repeat split. Qed.

Lemma identity_parsed_on_every_request_witness :
  req_Node (Inputs.request "sidecar~b" None) = Some (MkNode "sidecar~b") ∧
  the_con (requestBranch Inputs.answer (Inputs.request "sidecar~b" None) Inputs.active)
  = Some (MkCdsConnection "10.0.0.1:5000" 0%Z (Some "sidecar~b") (make_chan bool 1)).
Proof.
  split; [reflexivity|].
  exact (proj2 (identity_parsed_on_every_request Inputs.answer
                  (Inputs.request "sidecar~b" None) (MkNode "sidecar~b") Inputs.active eq_refl)
           "sidecar~b"
           (MkCdsConnection "10.0.0.1:5000" 0%Z (Some "sidecar~a") (make_chan bool 1))
           eq_refl eq_refl).
Defined.

(** C5 as stated fails: after the initial request of "sidecar~a", a request
    with an empty node ends the stream with the parse error, and a request
    of "sidecar~b" replaces the identity of the connection. *)
Lemma later_request_is_parsed_again :
  identity Inputs.active = Some "sidecar~a" ∧
  handler (run [Recv (inl (Inputs.request "" None)); Enqueue; SelectReq Inputs.answer]
             Inputs.active)
  = Returned (Some (ErrorString "missing parts in the service node")) ∧
  identity (run [Recv (inl (Inputs.request "sidecar~b" None)); Enqueue; SelectReq Inputs.answer]
              Inputs.active)
  = Some "sidecar~b".
Proof. vm_compute. repeat split. Qed.

Lemma acknowledgement_only_logged_witness :
  initialRequestReceived Inputs.active = true ∧
  sends (requestBranch Inputs.answer (Inputs.request "sidecar~a" (Some "rejected")) Inputs.active)
  = sends Inputs.active.
Proof.
  split; [reflexivity|].
  exact (proj1 (proj2 (proj2 (acknowledgement_only_logged Inputs.answer
                                (Inputs.request "sidecar~a" (Some "rejected"))
                                (MkNode "sidecar~a") "sidecar~a" Inputs.active
                                eq_refl eq_refl eq_refl)))).
Defined.

(** C7 as stated fails: with [cdsDebug] off, an acknowledgement without
    error detail is not logged; and an acknowledgement whose node does not
    parse ends the stream instead of continuing the loop. *)
Lemma acknowledgement_not_always_logged :
  cdsDebug (world Inputs.active) = false ∧
  logs (run [Recv (inl (Inputs.request "sidecar~a" None)); Enqueue; SelectReq Inputs.answer]
          Inputs.active)
  = logs Inputs.active ∧
  handler (run [Recv (inl (Inputs.request "" (Some "rejected"))); Enqueue;
                SelectReq Inputs.answer] Inputs.active)
  = Returned (Some (ErrorString "missing parts in the service node")).
Proof. vm_compute. repeat split. Qed.

(** ** Properties of whole runs of a stream *)

Section Runs.
Context `{Collaborators}.

(** The broadcast loop changes push channels and nothing else. *)
Lemma pushLoop_model (cs : list (string * loc)) (w w' : World) :
  pushLoop cs w = Done w' ∨ pushLoop cs w = Blocked w' ∨ pushLoop cs w = Panicked w' →
  cdsConnections w' = cdsConnections w ∧ cdsDebug w' = cdsDebug w ∧
  ∀ c, heap w' !! c ≫= modelNode = heap w !! c ≫= modelNode.
Proof.
  revert w. induction cs as [|[k c0] cs IH]; intros w Hr; simpl in Hr.
  - destruct Hr as [[= <-]|[|]]; done.
  - destruct (heap w !! c0) as [conn|] eqn:Hc.
    2:{ destruct Hr as [|[|[= <-]]]; done. }
    destruct (chan_send true (pushChannel conn)) as [ch| |] eqn:Hs.
    + apply IH in Hr as (Hreg & Hdbg & Hmod). simpl in *.
      repeat split; [done..|]. intros c. rewrite Hmod.
      destruct (decide (c = c0)) as [->|Hne].
      * by rewrite lookup_insert_eq, Hc.
      * by rewrite lookup_insert_ne.
    + destruct Hr as [|[[= <-]|]]; done.
    + destruct Hr as [|[|[= <-]]]; done.
Qed.

Lemma trigger_model (w : World) :
  cdsConnections (trigger w) = cdsConnections w ∧ cdsDebug (trigger w) = cdsDebug w ∧
  ∀ c, heap (trigger w) !! c ≫= modelNode = heap w !! c ≫= modelNode.
Proof.
  unfold trigger, cdsPushAll.
  destruct (pushLoop _ w) as [w'|w'|w'] eqn:Hr; eapply pushLoop_model; eauto.
Qed.

(** *** The registry is never written *)

Lemma step_registry (a : Action) (s : Stream) :
  cdsConnections (world (step a s)) = cdsConnections (world s).
Proof.
  destruct a as [[req|err]|  |o|o| | |b]; simpl.
  - destruct (reader s); done.
  - destruct (reader s); try done. unfold readerRecv. simpl. by case_decide.
  - unfold readerSend. destruct (reader s); try done.
    destruct (chan_send _ _); done.
  - destruct (handler s); [|done..]. unfold selectReq.
    destruct (chan_recv (reqChannel s)) as [r ch| |]; [|done..].
    by rewrite (proj1 (requestBranch_frame o r _)).
  - destruct (handler s); [|done..]. unfold selectPush.
    destruct (the_con s) as [c|]; [|done].
    destruct (chan_recv (pushChannel c)) as [v ch| |]; [|done..].
    by rewrite (proj1 (pushResponse_frame o _)).
  - unfold signal. destruct (the_con s) as [c|]; [|done].
    destruct (chan_send true (pushChannel c)); done.
  - apply trigger_model.
  - done.
Qed.

Lemma run_snoc (acts : list Action) (a : Action) (s : Stream) :
  run (acts ++ [a]) s = step a (run acts s).
Proof. unfold run. by rewrite foldl_snoc. Qed.

Lemma run_app (acts1 acts2 : list Action) (s : Stream) :
  run (acts1 ++ acts2) s = run acts2 (run acts1 s).
Proof. unfold run. by rewrite foldl_app. Qed.

Lemma run_registry (acts : list Action) (s : Stream) :
  cdsConnections (world (run acts s)) = cdsConnections (world s).
Proof.
  induction acts as [|a acts IH] using rev_ind; [done|].
  by rewrite run_snoc, step_registry.
Qed.

(** *** No response before the identity *)

Lemma identity_update_con (f : CdsConnection → CdsConnection) (s : Stream) :
  identity (update_con f s) = the_con s ≫= (λ c, modelNode (f c)).
Proof.
  unfold identity, the_con, update_con. simpl. rewrite lookup_alter_eq.
  by destruct (heap (world s) !! con s).
Qed.

Lemma pushResponse_identity (o : Oracle) (s : Stream) :
  identity (pushResponse o s) = identity s.
Proof.
  destruct (pushResponse_frame o s) as (Hw & _ & Hc & _).
  unfold identity, the_con. by rewrite Hw, Hc.
Qed.


(** Logging, and the local variables of the handler, do not touch the
    identity, the generator calls or the sends. *)
Lemma identity_emit (e : Event) (s : Stream) : identity (emit e s) = identity s.
Proof. reflexivity. Qed.
Lemma identity_with_initialRequestReceived (b : bool) (s : Stream) :
  identity (with_initialRequestReceived b s) = identity s.
Proof. reflexivity. Qed.
Lemma identity_with_node (n : string) (s : Stream) : identity (with_node n s) = identity s.
Proof. reflexivity. Qed.
Lemma builds_emit_logged (l : LogLine) (s : Stream) : builds (emit (Logged l) s) = builds s.
Proof. unfold builds. simpl. rewrite omap_snoc. simpl. by rewrite (right_id_L [] (++)). Qed.
Lemma sends_emit_logged (l : LogLine) (s : Stream) : sends (emit (Logged l) s) = sends s.
Proof. unfold sends. simpl. rewrite omap_snoc. simpl. by rewrite (right_id_L [] (++)). Qed.

Create Rewrite HintDb stream.
Hint Rewrite identity_emit identity_with_initialRequestReceived identity_with_node
  builds_emit_logged sends_emit_logged : stream.




(** *** The reader and the request channel *)

Lemma open_reader_alive (w : World) (peer : option string) (now : Time) :
  reader_alive (StreamClusters_open w peer now).
Proof. unfold reader_alive. simpl. repeat split; [done|lia]. Qed.

Lemma chan_recv_val {A} (ch ch' : Chan A) (v : A) :
  chan_recv ch = RecvVal v ch' →
  chan_buf ch = v :: chan_buf ch' ∧ chan_cap ch' = chan_cap ch ∧
  chan_closed ch' = chan_closed ch.
Proof.
  unfold chan_recv. destruct (chan_buf ch) as [|x rest] eqn:Hb.
  - by destruct (chan_closed ch).
  - intros [= <- <-]. done.
Qed.

(** What the main loop and the environment do to the variables of the
    reader: at most, a request is taken from the channel. *)
Lemma step_main_channel (a : Action) (s : Stream) :
  (∀ r, a ≠ Recv r) → a ≠ Enqueue →
  reader (step a s) = reader s ∧ receiveError (step a s) = receiveError s ∧
  chan_cap (reqChannel (step a s)) = chan_cap (reqChannel s) ∧
  chan_closed (reqChannel (step a s)) = chan_closed (reqChannel s) ∧
  length (chan_buf (reqChannel (step a s))) ≤ length (chan_buf (reqChannel s)).
Proof.
  intros Hrecv Henq.
  destruct a as [r|  |o|o| | |b]; simpl; [by destruct (Hrecv r)|done|..].
  - destruct (handler s); [|done..]. unfold selectReq.
    destruct (chan_recv (reqChannel s)) as [r ch| |] eqn:Hr; [|done..].
    destruct (requestBranch_frame o r (with_reqChannel ch s))
      as (_ & _ & _ & _ & He & Hq & Hrd).
    apply chan_recv_val in Hr as (Hb & Hcap & Hcl).
    rewrite He, Hq, Hrd. simpl. rewrite Hb. simpl. repeat split; [done..|lia].
  - destruct (handler s); [|done..]. unfold selectPush.
    destruct (the_con s) as [c|]; [|done].
    destruct (chan_recv (pushChannel c)) as [v ch| |]; [|done..].
    match goal with
    | |- context [pushResponse ?o ?s0] =>
        destruct (pushResponse_frame o s0) as (_ & _ & _ & _ & _ & He & Hq & Hrd)
    end.
    rewrite He, Hq, Hrd. done.
  - unfold signal. destruct (the_con s) as [c|]; [|done].
    destruct (chan_send true (pushChannel c)); done.
  - done.
  - done.
Qed.

Lemma step_reader_failed (err : error) (a : Action) (s : Stream) :
  reader_failed err s → reader_failed err (step a s).
Proof.
  intros (Hrd & Hcl & Hcap & Hlen & He).
  destruct a as [r|  |o|o| | |b].
  1: { simpl. rewrite Hrd. done. }
  1: { simpl. unfold readerSend. rewrite Hrd. done. }
  all: match goal with
       | |- reader_failed _ (step ?a _) =>
           destruct (step_main_channel a s) as (H1 & H2 & H3 & H4 & H5); [done|done|]
       end;
    unfold reader_failed; rewrite H1, H2, H3, H4; repeat split; [done..|lia|done].
Qed.

Lemma run_reader_failed (err : error) (acts : list Action) (s : Stream) :
  reader_failed err s → reader_failed err (run acts s).
Proof.
  intros Hf. induction acts as [|a acts IH] using rev_ind; [done|].
  rewrite run_snoc. by apply step_reader_failed.
Qed.

Lemma step_reader_alive (a : Action) (s : Stream) :
  reader_alive s →
  reader_alive (step a s) ∨ reader (step a s) = ReaderDone.
Proof.
  intros (Hrd & Hcl & Hcap & Hlen & He).
  destruct a as [[req|err]|  |o|o| | |b].
  1: { left. unfold reader_alive. simpl. destruct (reader s) eqn:Hr; simpl; rewrite ?Hr; done. }
  1: { simpl. destruct (reader s) eqn:Hr; [by right| |congruence].
       left. unfold reader_alive. rewrite Hr. done. }
  1: { left. unfold reader_alive. simpl. unfold readerSend.
       destruct (reader s) eqn:Hr; rewrite ?Hr; [done| |done].
       destruct (chan_send req (reqChannel s)) as [ch| |] eqn:Hs; rewrite ?Hr; [|done..].
       apply chan_send_ok in Hs as (_ & Hlt & ->).
       unfold reader_alive. simpl. rewrite length_app. simpl.
       repeat split; [done..|lia|done]. }
  all: left;
    match goal with
    | |- reader_alive (step ?a _) =>
        destruct (step_main_channel a s) as (H1 & H2 & H3 & H4 & H5); [done|done|]
    end;
    unfold reader_alive; rewrite H1, H2, H3, H4; repeat split; [done..|lia|done].
Qed.

Lemma run_reader_alive (acts : list Action) (s : Stream) :
  reader_alive s →
  reader_alive (run acts s) ∨ reader (run acts s) = ReaderDone.
Proof.
  intros Ha. induction acts as [|a acts IH] using rev_ind; [by left|].
  rewrite run_snoc. destruct IH as [IH|IH].
  - by apply step_reader_alive.
  - right. destruct a as [r|  |o|o| | |b].
    1: { simpl. by rewrite IH. }
    1: { simpl. unfold readerSend. by rewrite IH. }
    all: match goal with
         | |- reader (step ?a ?s0) = _ =>
             destruct (step_main_channel a s0) as (H1 & _); [done|done|]
         end; by rewrite H1.
Qed.

Lemma readerRecv_failed (err : error) (s : Stream) :
  reader_alive s → reader_failed err (readerRecv (inr err) s).
Proof.
  intros (Hrd & Hcl & Hcap & Hlen & He).
  unfold reader_failed, readerRecv, terminal_error. simpl.
  case_decide; simpl; repeat split; done.
Qed.

(** A stream never appears in the registry of the world it was opened in:
    its connection is allocated at an address the registry cannot hold. *)
Lemma stream_connection_not_registered
    (w : World) (peer : option string) (now : Time) (acts : list Action) :
  (∀ k c, cdsConnections w !! k = Some c → is_Some (heap w !! c)) →
  let s := StreamClusters w peer now acts in
  ¬ registered (con (StreamClusters_open w peer now)) (world s).
Proof.
  intros Hwf. unfold StreamClusters. simpl. intros [k Hk]. rewrite run_registry in Hk. simpl in Hk.
  apply Hwf in Hk. apply elem_of_dom in Hk. by apply is_fresh in Hk.
Qed.

(** The two results of the handler after a failed [Recv]. *)
Lemma terminal_error_cases (err : error) :
  terminal_error io_EOF = None ∧
  (∀ msg, terminal_error (StatusError Canceled msg) = None) ∧
  (err ≠ io_EOF → status_Code (Some err) ≠ Canceled → terminal_error err = Some err).
Proof.
  unfold terminal_error. split; [|split].
  - apply decide_True. by right.
  - intros msg. apply decide_True. by left.
  - intros H1 H2. apply decide_False. by intros [|].
Qed.

Lemma step_SelectReq_running (o : Oracle) (s : Stream) :
  handler s = Running → step (SelectReq o) s = selectReq o s.
Proof. intros Hr. simpl. by rewrite Hr. Qed.

(** Once the reader has failed, the request case of [select] is ready. *)
Lemma selectReq_after_failure (err : error) (o : Oracle) (s : Stream) :
  reader_failed err s →
  match chan_buf (reqChannel s) with
  | [] => selectReq o s = with_handler (Returned (terminal_error err)) s
  | [discReq] => selectReq o s = requestBranch o discReq (with_reqChannel (MkChan 1 [] true) s)
  | _ => False
  end.
Proof.
  intros (Hdone & Hcl & Hcap & Hlen & He). unfold selectReq, chan_recv.
  destruct (reqChannel s) as [cap buf closed]. simpl in *. subst cap closed.
  destruct buf as [|discReq [|? ?]]; simpl in Hlen; [by rewrite He|done|lia].
Qed.

(** Let the reader be in [stream.Recv] at any point of any run of a
    stream, and let [Recv] fail with [err].  The reader closes the request
    channel and records the error unless it is [io.EOF] or a cancellation.
    From then on, whatever happens next, as long as the handler has not
    returned the request case of its [select] is ready, and at most one
    request is still buffered: with none, taking the case makes the handler
    return the nil error for [io.EOF] and cancellation, and [err] itself
    otherwise; with one, that request is handled first, and if the handler
    survives it the next take returns in the same way. *)
Theorem recv_failure_ends_stream
    (w : World) (peer : option string) (now : Time)
    (before after : list Action) (err : error) (o : Oracle) :
  let s := StreamClusters w peer now before in
  reader s = InRecv →
  let s' := run after (step (Recv (inr err)) s) in
  handler s' = Running →
  chan_closed (reqChannel s') = true ∧
  receiveError s' = (if decide (status_Code (Some err) = Canceled ∨ err = io_EOF)
                     then None else Some err) ∧
  match chan_buf (reqChannel s') with
  | [] => handler (step (SelectReq o) s') = Returned (terminal_error err)
  | [discReq] =>
      let s2 := step (SelectReq o) s' in
      s2 = requestBranch o discReq (with_reqChannel (MkChan 1 [] true) s') ∧
      (handler s2 = Running →
       ∀ o', handler (step (SelectReq o') s2) = Returned (terminal_error err))
  | _ => False
  end.
Proof.
  intros s Hrd s' Hrun.
  assert (reader_alive s) as Halive.
  { destruct (run_reader_alive before _ (open_reader_alive w peer now)) as [Ha|Hd];
      [exact Ha|].
    unfold s, StreamClusters in Hrd. congruence. }
  assert (reader_failed err (step (Recv (inr err)) s)) as Hfail.
  { unfold step. rewrite Hrd. by apply readerRecv_failed. }
  apply (run_reader_failed err after) in Hfail. fold s' in Hfail.
  pose proof Hfail as (Hdone & Hcl & Hcap & Hlen & He).
  split; [done|]. split; [done|].
  pose proof (selectReq_after_failure err o s' Hfail) as Hsel.
  destruct (chan_buf (reqChannel s')) as [|discReq [|? ?]] eqn:Hbuf; [| |done].
  - rewrite step_SelectReq_running, Hsel by done. done.
  - intros s2. assert (s2 = requestBranch o discReq (with_reqChannel (MkChan 1 [] true) s'))
      as Hs2 by (unfold s2; by rewrite step_SelectReq_running, Hsel).
    split; [done|]. intros Hrun2 o'.
    assert (reader_failed err s2) as Hfail2 by (by apply step_reader_failed).
    pose proof (selectReq_after_failure err o' s2 Hfail2) as Hsel2.
    assert (chan_buf (reqChannel s2) = []) as Hbuf2.
    { rewrite Hs2.
      destruct (requestBranch_frame o discReq (with_reqChannel (MkChan 1 [] true) s'))
        as (_ & _ & _ & _ & _ & Hq2 & _).
      by rewrite Hq2. }
    rewrite Hbuf2 in Hsel2. rewrite step_SelectReq_running, Hsel2 by done. done.
Qed.

End Runs.

(** The stream [Inputs.active], whose reader then meets a transport error. *)
Lemma recv_failure_ends_stream_witness :
  reader (StreamClusters Inputs.empty_world (Some "10.0.0.1:5000") 0%Z
            Inputs.initial_exchange) = InRecv ∧
  handler (run [] (step (Recv (inr Inputs.transport_error))
                     (StreamClusters Inputs.empty_world (Some "10.0.0.1:5000") 0%Z
                        Inputs.initial_exchange)))
  = Running ∧
  handler (step (SelectReq Inputs.answer)
             (run [] (step (Recv (inr Inputs.transport_error))
                        (StreamClusters Inputs.empty_world (Some "10.0.0.1:5000") 0%Z
                           Inputs.initial_exchange))))
  = Returned (Some Inputs.transport_error).
Proof.
  assert (reader (StreamClusters Inputs.empty_world (Some "10.0.0.1:5000") 0%Z
                    Inputs.initial_exchange) = InRecv) as Hrd
    by (vm_compute; reflexivity).
  assert (handler (run [] (step (Recv (inr Inputs.transport_error))
                             (StreamClusters Inputs.empty_world (Some "10.0.0.1:5000") 0%Z
                                Inputs.initial_exchange))) = Running) as Hrun
    by (vm_compute; reflexivity).
  split; [exact Hrd|]. split; [exact Hrun|].
  pose proof (recv_failure_ends_stream Inputs.empty_world (Some "10.0.0.1:5000") 0%Z
                Inputs.initial_exchange [] Inputs.transport_error Inputs.answer
                Hrd Hrun) as (_ & _ & Hw).
  vm_compute in Hw. vm_compute. exact Hw.
Defined.

(** C2 against the code.  A stream is opened in the empty world, its
    initial request is answered and the handler is waiting for more: the
    registry is still empty, so the connection of the live stream cannot be
    reached from it.  And where a connection is registered, [removeCdsCon]
    with its key and its address leaves it registered. *)
Theorem live_stream_is_not_registered :
  handler Inputs.active = Running ∧
  reader Inputs.active = InRecv ∧
  length (sends Inputs.active) = 1 ∧
  is_Some (the_con Inputs.active) ∧
  cdsConnections (world Inputs.active) = ∅ ∧
  ¬ registered (con Inputs.active) (world Inputs.active) ∧
  registered 1%positive Inputs.one_idle ∧
  registered 1%positive (removeCdsCon "sidecar~a-1" 1%positive Inputs.one_idle).
Proof.
  repeat split.
  - vm_compute. by eexists.
  - intros [k Hk]. vm_compute in Hk. discriminate Hk.
  - exists "sidecar~a-1". reflexivity.
  - exists "sidecar~a-1". reflexivity.
Qed.

(** With a sender outside this file that holds the connection: a push
    signal reaches a stream that has not received its initial request, the
    main loop takes the push case and dereferences the nil [con.modelNode].
    No run in which only the code of this file acts reaches that state
    (see [handler_never_reads_nil_identity]). *)
Theorem push_before_identity_crashes :
  let s := run [Signal; SelectPush Inputs.answer] Inputs.opened in
  identity (step Signal Inputs.opened) = None ∧
  (the_con (step Signal Inputs.opened) ≫= λ c, Some (pending (pushChannel c))) = Some 1 ∧
  handler s = Crashed ∧ builds s = [] ∧ sends s = [].
Proof. vm_compute. repeat split. Qed.

(** ** More on the response envelope, the broadcast and the debug endpoint *)

Section Coverage.
Context `{Collaborators}.

Lemma marshalAll_Some (response : list Cluster) (anys : list Any) :
  marshalAll response = Some anys ↔ Some <$> anys = MarshalAny <$> response.
Proof.
  revert anys. induction response as [|c response IH]; intros anys; simpl.
  - split; [by intros [= <-]|]. by destruct anys.
  - destruct (MarshalAny c) as [cc|] eqn:Hc.
    + destruct (marshalAll response) as [rest|] eqn:Hrest; simpl.
      * split.
        -- intros [= <-]. simpl. f_equal. by apply IH.
        -- destruct anys as [|a anys]; [done|]. simpl. intros [= -> Hr].
           apply IH in Hr. by injection Hr as ->.
      * split; [done|]. destruct anys as [|a anys]; [done|]. simpl. intros [= _ Hr].
        by apply IH in Hr.
    + split; [done|]. by destruct anys.
Qed.

Lemma marshalAll_None (response : list Cluster) :
  marshalAll response = None ↔ ∃ c, c ∈ response ∧ MarshalAny c = None.
Proof.
  induction response as [|c response IH]; simpl.
  - split; [done|]. intros (c & Hin & _). by apply elem_of_nil in Hin.
  - destruct (MarshalAny c) as [cc|] eqn:Hc.
    + destruct (marshalAll response) as [rest|] eqn:Hrest; simpl.
      * split; [done|]. intros (c' & Hin & Hn).
        apply elem_of_cons in Hin as [->|Hin]; [congruence|].
        assert (Some rest = None) as E by (apply IH; eauto). done.
      * split; [|done]. intros _. destruct (proj1 IH eq_refl) as (c' & Hin & Hn).
        exists c'. split; [by right|done].
    + split; [|done]. intros _. exists c. split; [by left|done].
Qed.

(** X1.  [con.clusters] wraps the clusters in an envelope with the cluster
    type URL and the version and nonce of the call; the resources are the
    marshalled clusters, one for one and in the order given.  The call
    panics exactly when one of the clusters does not marshal. *)
Theorem clusters_envelope (version nonce : string) (response : list Cluster) :
  (∀ r, clusters version nonce response = Some r →
     TypeUrl r = clusterType ∧ VersionInfo r = version ∧ Nonce r = nonce ∧
     length (Resources r) = length response ∧
     ∀ i, Some <$> (Resources r !! i) = MarshalAny <$> (response !! i)) ∧
  (clusters version nonce response = None ↔
     ∃ c, c ∈ response ∧ MarshalAny c = None).
Proof.
  unfold clusters. split.
  - intros r Hr. destruct (marshalAll response) as [anys|] eqn:Hm; [|done].
    injection Hr as <-. simpl. apply marshalAll_Some in Hm.
    repeat split.
    + rewrite <-(length_fmap Some anys), Hm. by rewrite length_fmap.
    + intros i. rewrite <-!list_lookup_fmap. by rewrite Hm.
  - rewrite <-marshalAll_None. destruct (marshalAll response); done.
Qed.

(** The loop leaves every field but the push channel as it was, and leaves
    alone every connection it does not visit. *)
Lemma pushLoop_fields (cs : list (string * loc)) (w w' : World) :
  pushLoop cs w = Done w' ∨ pushLoop cs w = Blocked w' ∨ pushLoop cs w = Panicked w' →
  (∀ c ch0, set_pushChannel ch0 <$> heap w' !! c = set_pushChannel ch0 <$> heap w !! c) ∧
  (∀ c, c ∉ cs.*2 → heap w' !! c = heap w !! c).
Proof.
  revert w. induction cs as [|[k c0] cs IH]; intros w Hr; simpl in Hr.
  - destruct Hr as [[= <-]|[|]]; done.
  - destruct (heap w !! c0) as [conn|] eqn:Hc.
    2:{ destruct Hr as [|[|[= <-]]]; done. }
    destruct (chan_send true (pushChannel conn)) as [ch| |] eqn:Hs.
    + apply IH in Hr as [Hf Hu]. simpl in *. split.
      * intros c ch0. rewrite Hf. destruct (decide (c = c0)) as [->|Hne].
        -- by rewrite lookup_insert_eq, Hc.
        -- by rewrite lookup_insert_ne.
      * intros c Hnot. apply not_elem_of_cons in Hnot as [Hne Hnot].
        rewrite Hu by done. by rewrite lookup_insert_ne.
    + destruct Hr as [|[[= <-]|]]; done.
    + destruct Hr as [|[|[= <-]]]; done.
Qed.

(** X2.  However a broadcast ends (it returns, blocks or panics), it has
    not changed the registry or [cdsDebug], it has changed nothing of any
    connection but its push channel, and it has not touched a connection
    that is not registered. *)
Theorem broadcast_touches_only_registered_channels (w : World) :
  cdsConnections (trigger w) = cdsConnections w ∧
  cdsDebug (trigger w) = cdsDebug w ∧
  (∀ c ch0, set_pushChannel ch0 <$> heap (trigger w) !! c
            = set_pushChannel ch0 <$> heap w !! c) ∧
  (∀ c, ¬ registered c w → heap (trigger w) !! c = heap w !! c).
Proof.
  assert (∀ w', pushLoop (rangeOrder (copyMap (cdsConnections w))) w = Done w'
                ∨ pushLoop (rangeOrder (copyMap (cdsConnections w))) w = Blocked w'
                ∨ pushLoop (rangeOrder (copyMap (cdsConnections w))) w = Panicked w' →
          cdsConnections w' = cdsConnections w ∧ cdsDebug w' = cdsDebug w ∧
          (∀ c ch0, set_pushChannel ch0 <$> heap w' !! c
                    = set_pushChannel ch0 <$> heap w !! c) ∧
          (∀ c, ¬ registered c w → heap w' !! c = heap w !! c)) as Hall.
  { intros w' Hr. destruct (pushLoop_model _ _ _ Hr) as (Hreg & Hdbg & _).
    destruct (pushLoop_fields _ _ _ Hr) as [Hf Hu].
    repeat split; [done..|]. intros c Hnot. apply Hu.
    rewrite copyMap_id. intros Hin. apply list_elem_of_fmap in Hin as ([k c'] & -> & Hin).
    apply elem_of_rangeOrder in Hin. apply Hnot. by exists k. }
  unfold trigger, cdsPushAll.
  destruct (pushLoop _ w) as [w'|w'|w'] eqn:Hr; apply Hall; auto.
Qed.

(** A broadcast that returns has filled the channel of every connection it
    visited, which was open and empty. *)
Lemma pushLoop_done_channels (cs : list (string * loc)) (w w' : World) :
  push_channels_ok w →
  pushLoop cs w = Done w' →
  ∀ k c, (k, c) ∈ cs →
    ∃ conn, heap w !! c = Some conn ∧ pushChannel conn = make_chan bool 1 ∧
            heap w' !! c = Some (set_pushChannel (MkChan 1 [true] false) conn).
Proof.
  revert w. induction cs as [|[k0 c0] cs IH]; intros w Hok Hr k c Hin; simpl in Hr.
  - by apply elem_of_nil in Hin.
  - destruct (heap w !! c0) as [conn0|] eqn:Hc0; [|done].
    destruct (chan_send true (pushChannel conn0)) as [ch| |] eqn:Hs; [|done|done].
    apply chan_send_ok in Hs as (Hcl & Hlt & ->).
    destruct (Hok c0 conn0 Hc0) as [Hcap _]. rewrite Hcap in Hlt.
    assert (pushChannel conn0 = make_chan bool 1) as Hidle.
    { destruct (pushChannel conn0) as [cap buf closed]. simpl in *. subst.
      destruct buf; [done|simpl in Hlt; lia]. }
    rewrite Hidle in Hr. simpl in Hr.
    set (conn1 := set_pushChannel (MkChan 1 [true] false) conn0) in *.
    set (w1 := set_heap (<[c0:=conn1]> (heap w)) w) in *.
    assert (heap w1 !! c0 = Some conn1) as Hc1 by (simpl; apply lookup_insert_eq).
    destruct (pushLoop_done_frame cs w1 w' c0 conn1 Hr Hc1) as [Hkeep Hfresh].
    { unfold pending. simpl. lia. }
    apply elem_of_cons in Hin as [[= -> ->]|Hin].
    + exists conn0. done.
    + assert (c ≠ c0) as Hne by (intros ->; by apply (Hfresh k)).
      assert (push_channels_ok w1) as Hok1.
      { intros c' conn'. simpl. destruct (decide (c' = c0)) as [->|Hne'].
        - rewrite lookup_insert_eq. intros [= <-]. unfold pending. simpl.
          split; [done|lia].
        - rewrite lookup_insert_ne by done. apply Hok. }
      destruct (IH w1 Hok1 Hr k c Hin) as (conn & H1 & H2 & H3).
      exists conn. simpl in H1. rewrite lookup_insert_ne in H1 by done. done.
Qed.

(** X3.  Once a broadcast has returned, further broadcasts change nothing
    as long as no handler takes its signal: with an empty registry they
    return at once, otherwise they block on the first connection they
    visit, and in both cases the world stays as the first broadcast left
    it. *)
Theorem broadcast_after_broadcast_changes_nothing (w w' : World) :
  push_channels_ok w →
  cdsPushAll w = Done w' →
  (cdsConnections w = ∅ → cdsPushAll w' = Done w') ∧
  (cdsConnections w ≠ ∅ → cdsPushAll w' = Blocked w') ∧
  ∀ n, triggers n w' = w'.
Proof.
  intros Hok Hdone.
  assert (cdsConnections w' = cdsConnections w) as Hreg.
  { unfold cdsPushAll in Hdone. eapply pushLoop_model; eauto. }
  assert (∀ k c, cdsConnections w !! k = Some c →
                 ∃ conn, heap w' !! c = Some conn ∧ pushChannel conn = MkChan 1 [true] false)
    as Hfull.
  { intros k c Hk. unfold cdsPushAll in Hdone. rewrite copyMap_id in Hdone.
    destruct (pushLoop_done_channels _ w w' Hok Hdone k c) as (conn & _ & _ & Hc);
      [by apply elem_of_rangeOrder|]. eexists. split; [exact Hc|done]. }
  assert (cdsPushAll w' = Done w' ∧ cdsConnections w = ∅ ∨
          cdsPushAll w' = Blocked w' ∧ cdsConnections w ≠ ∅) as Hagain.
  { unfold cdsPushAll. rewrite copyMap_id, Hreg.
    destruct (rangeOrder (cdsConnections w)) as [|[k c] rest] eqn:Hlist.
    - left. split; [done|]. apply map_to_list_empty_iff.
      apply Permutation_nil_r. rewrite <-(rangeOrder_perm (cdsConnections w)). by rewrite Hlist.
    - right. assert (cdsConnections w !! k = Some c) as Hk.
      { apply elem_of_rangeOrder. rewrite Hlist. by left. }
      destruct (Hfull k c Hk) as (conn & Hc & Hch). simpl. rewrite Hc, Hch. simpl.
      split; [done|]. intros Hempty. rewrite Hempty in Hk. by rewrite lookup_empty in Hk. }
  assert (trigger w' = w') as Htrig.
  { unfold trigger. by destruct Hagain as [[-> _]|[-> _]]. }
  split; [|split].
  - intros Hempty. by destruct Hagain as [[? _]|[_ ?]].
  - intros Hne. by destruct Hagain as [[_ ?]|[? _]].
  - induction n as [|n IH]; simpl; [done|]. by rewrite Htrig.
Qed.

(** X4.  When the loop of a broadcast runs to its end, the world it leaves
    does not depend on the order in which the connections are visited:
    visited in any other order, the loop also runs to its end and leaves
    the same world. *)
Theorem pushLoop_order_irrelevant (cs1 cs2 : list (string * loc)) (w w' : World) :
  cs1 ≡ₚ cs2 →
  push_channels_ok w →
  pushLoop cs1 w = Done w' →
  pushLoop cs2 w = Done w'.
Proof.
  intros Hperm. revert w w'.
  induction Hperm as [|[k c] l l' Hperm IH|[k2 c2] [k1 c1] l|l1 l2 l3 _ IH1 _ IH2];
    intros w w' Hok Hr.
  - done.
  - simpl in *. destruct (heap w !! c) as [conn|] eqn:Hc; [|done].
    destruct (chan_send true (pushChannel conn)) as [ch| |] eqn:Hs; [|done..].
    apply IH; [|done].
    eapply (pushLoop_inv [(k, c)] w Hok). left. simpl. by rewrite Hc, Hs.
  - simpl in *.
    destruct (heap w !! c1) as [conn1|] eqn:Hc1; [|done].
    destruct (chan_send true (pushChannel conn1)) as [ch1| |] eqn:Hs1; [|done..].
    simpl in Hr. destruct (decide (c2 = c1)) as [->|Hne].
    { rewrite lookup_insert_eq in Hr. simpl in Hr.
      apply chan_send_ok in Hs1 as (_ & Hlt & ->).
      destruct (Hok c1 conn1 Hc1) as [Hcap _].
      unfold chan_send in Hr. simpl in Hr.
      rewrite decide_False in Hr; [done|]. rewrite length_app. simpl. lia. }
    rewrite lookup_insert_ne in Hr by done.
    destruct (heap w !! c2) as [conn2|] eqn:Hc2; [|done].
    destruct (chan_send true (pushChannel conn2)) as [ch2| |] eqn:Hs2; [|done..].
    simpl in Hr. simpl. rewrite lookup_insert_ne by done. rewrite Hc1, Hs1. simpl.
    rewrite <-Hr. f_equal. unfold set_heap. simpl. f_equal.
    by apply insert_insert_ne.
  - apply IH2; [done|]. by apply IH1.
Qed.

(** X5.  Whatever the parameters, a request to [Cdsz] that returns has not
    changed the registry nor anything of a connection but its push
    channel.  With a [debug] value it has written nothing and left every
    connection alone; without one it has left [cdsDebug] alone and written
    exactly one body after what was written before.  Without a [push]
    value the request always returns and leaves every connection alone. *)
Theorem Cdsz_effects (w : World) (rw : list string) (form : gmap string (list string)) :
  (∀ w' rw', Cdsz w rw form = Done (w', rw') →
     cdsConnections w' = cdsConnections w ∧
     (∀ c ch0, set_pushChannel ch0 <$> heap w' !! c = set_pushChannel ch0 <$> heap w !! c) ∧
     (Form_Get form "debug" ≠ "" → rw' = rw ∧ heap w' = heap w) ∧
     (Form_Get form "debug" = "" → cdsDebug w' = cdsDebug w ∧ ∃ body, rw' = rw ++ [body])) ∧
  (Form_Get form "push" = "" →
     ∃ w' rw', Cdsz w rw form = Done (w', rw') ∧ heap w' = heap w).
Proof.
  unfold Cdsz. split.
  - intros w' rw' Hr. case_decide as Hd.
    + injection Hr as <- <-. simpl. repeat split; done.
    + assert (∀ w1, (w1 = w ∨ cdsPushAll w = Done w1) →
                cdsConnections w1 = cdsConnections w ∧ cdsDebug w1 = cdsDebug w ∧
                ∀ c ch0, set_pushChannel ch0 <$> heap w1 !! c
                         = set_pushChannel ch0 <$> heap w !! c) as Hpush.
      { intros w1 [->|Hp]; [done|]. unfold cdsPushAll in Hp.
        destruct (pushLoop_model _ _ _ (or_introl Hp)) as (? & ? & _).
        destruct (pushLoop_fields _ _ _ (or_introl Hp)) as [? _]. done. }
      case_decide as Hp.
      * destruct (cdsPushAll w) as [w1| |] eqn:Hpa; simpl in Hr; [|done..].
        destruct (Hpush w1 (or_intror eq_refl)) as (Hreg & Hdbg & Hf).
        destruct (json_Marshal (jsonView w1)) as [data [err|]];
          injection Hr as <- <-; repeat split; try done; eauto.
      * simpl in Hr.
        destruct (json_Marshal (jsonView w)) as [data [err|]];
          injection Hr as <- <-; repeat split; try done; eauto.
  - intros Hp. case_decide as Hd; [by eexists _, _|].
    rewrite decide_False by (intros Hn; by apply Hn). simpl.
    destruct (json_Marshal (jsonView w)) as [data [err|]]; by eexists _, _.
Qed.

(** A connection that is not registered is out of reach of a broadcast. *)
Lemma trigger_unregistered (w : World) (c : loc) :
  ¬ registered c w → heap (trigger w) !! c = heap w !! c.
Proof.
  intros Hnot. unfold trigger, cdsPushAll.
  assert (c ∉ (rangeOrder (copyMap (cdsConnections w))).*2) as Hout.
  { rewrite copyMap_id. intros Hin. apply list_elem_of_fmap in Hin as ([k c'] & -> & Hin).
    apply elem_of_rangeOrder in Hin. apply Hnot. by exists k. }
  destruct (pushLoop _ w) as [w'|w'|w'] eqn:Hr;
    eapply pushLoop_fields; eauto.
Qed.

End Coverage.

Lemma two_idle_ok : push_channels_ok MoreInputs.two_idle.
Proof.
  intros c conn Hc. unfold MoreInputs.two_idle in Hc. simpl in Hc.
  apply lookup_insert_Some in Hc as [[<- <-]|[_ Hc]].
  - unfold pending. simpl. split; [reflexivity|lia].
  - apply lookup_singleton_Some in Hc as [<- <-].
    unfold pending. simpl. split; [reflexivity|lia].
Defined.

(** Three more broadcasts after the one that filled the channel. *)
Lemma broadcast_after_broadcast_changes_nothing_witness :
  push_channels_ok Inputs.one_idle ∧
  cdsPushAll Inputs.one_idle = Done Inputs.one_pending ∧
  triggers 3 Inputs.one_pending = Inputs.one_pending.
Proof.
  assert (cdsPushAll Inputs.one_idle = Done Inputs.one_pending) as Hdone
    by (vm_compute; reflexivity).
  split; [exact one_idle_ok|]. split; [exact Hdone|].
  exact (proj2 (proj2 (broadcast_after_broadcast_changes_nothing
                         Inputs.one_idle Inputs.one_pending one_idle_ok Hdone)) 3).
Defined.

(** Two connections, visited in either order. *)
Lemma pushLoop_order_irrelevant_witness :
  push_channels_ok MoreInputs.two_idle ∧
  pushLoop [("sidecar~a-1", 1%positive); ("sidecar~b-2", 2%positive)] MoreInputs.two_idle
  = Done MoreInputs.two_pending ∧
  pushLoop [("sidecar~b-2", 2%positive); ("sidecar~a-1", 1%positive)] MoreInputs.two_idle
  = Done MoreInputs.two_pending.
Proof.
  assert (pushLoop [("sidecar~a-1", 1%positive); ("sidecar~b-2", 2%positive)]
            MoreInputs.two_idle = Done MoreInputs.two_pending) as Hdone
    by (vm_compute; reflexivity).
  split; [exact two_idle_ok|]. split; [exact Hdone|].
  exact (pushLoop_order_irrelevant
           [("sidecar~a-1", 1%positive); ("sidecar~b-2", 2%positive)]
           [("sidecar~b-2", 2%positive); ("sidecar~a-1", 1%positive)]
           MoreInputs.two_idle MoreInputs.two_pending
           (perm_swap _ _ _) two_idle_ok Hdone).
Defined.

(** ** More on the stream handler *)

Section StreamCoverage.
Context `{Collaborators}.

Ltac trace_simpl :=
  unfold builds, sends, logs; simpl; rewrite ?omap_app; simpl;
  rewrite ?(right_id_L [] (++)), <-?(assoc_L (++)); simpl.

Lemma length_builds_emit (e : Event) (s : Stream) :
  builds (emit e s) = builds s ++ match e with BuildClustersCall p => [p] | _ => [] end.
Proof. unfold builds. simpl. rewrite omap_snoc. by destruct e. Qed.

Lemma length_sends_emit (e : Event) (s : Stream) :
  sends (emit e s) = sends s ++ match e with StreamSend r _ => [r] | _ => [] end.
Proof. unfold sends. simpl. rewrite omap_snoc. by destruct e. Qed.

Lemma logs_emit (e : Event) (s : Stream) :
  logs (emit e s) = logs s ++ match e with Logged l => [l] | _ => [] end.
Proof. unfold logs. simpl. rewrite omap_snoc. by destruct e. Qed.

(** The end of the loop body, case by case. *)
Lemma pushResponse_cases (o : Oracle) (s : Stream) :
  let s' := pushResponse o s in
  (identity s = None ∧ s' = with_handler Crashed s) ∨
  (∃ proxy, identity s = Some proxy ∧ marshalAll (build_result o).1 = None ∧
            s' = with_handler Crashed (emit (BuildClustersCall proxy) s)) ∨
  (∃ proxy anys,
     identity s = Some proxy ∧ marshalAll (build_result o).1 = Some anys ∧
     builds s' = builds s ++ [proxy] ∧
     sends s' = sends s
                ++ [MkDiscoveryResponse clusterType (version_now o) (nonce_now o) anys] ∧
     handler s' = match send_error o with
                  | Some err => Returned (Some err)
                  | None => handler s
                  end ∧
     logs s' = logs s ++ match send_error o with
                         | Some err => [Warnf_send_failure err]
                         | None => if cdsDebug (world s)
                                   then [Infof_push (node s) (peerAddr s) (build_result o).1]
                                   else []
                         end).
Proof.
  simpl. unfold pushResponse, identity, clusters.
  destruct (the_con s ≫= modelNode) as [proxy|]; [|by left].
  destruct (marshalAll (build_result o).1) as [anys|]; simpl.
  - right. right. exists proxy, anys.
    destruct (send_error o) as [err|]; simpl;
      [|destruct (cdsDebug (world s)) eqn:Hdbg; simpl; rewrite ?Hdbg];
      trace_simpl; repeat split; done.
  - right. left. by exists proxy.
Qed.

(** The request branch up to the point where it answers or continues. *)
Lemma requestBranch_cases (o : Oracle) (discReq : DiscoveryRequest) (s : Stream) :
  let s' := requestBranch o discReq s in
  let s1 := match req_Node discReq with
            | Some n => if decide (node s = "") then with_node (connectionID (Id n)) s else s
            | None => s
            end in
  (req_Node discReq = None ∧ s' = with_handler Crashed s) ∨
  (∃ n err, req_Node discReq = Some n ∧ ParseServiceNode (Id n) = inr err ∧
            s' = with_handler (Returned (Some err)) s1) ∨
  (∃ n nt, req_Node discReq = Some n ∧ ParseServiceNode (Id n) = inl nt ∧
           initialRequestReceived s = true ∧
           world s' = world (update_con (set_modelNode (Some nt)) s) ∧
           handler s' = handler s ∧ builds s' = builds s ∧ sends s' = sends s ∧
           initialRequestReceived s' = true ∧ node s' = node s1) ∨
  (∃ n nt s4, req_Node discReq = Some n ∧ ParseServiceNode (Id n) = inl nt ∧
              initialRequestReceived s = false ∧
              s' = pushResponse o s4 ∧
              world s4 = world (update_con (set_modelNode (Some nt)) s) ∧
              con s4 = con s ∧ handler s4 = handler s ∧ builds s4 = builds s ∧
              sends s4 = sends s ∧ initialRequestReceived s4 = true ∧
              node s4 = node s1 ∧ peerAddr s4 = peerAddr s ∧
              logs s4 = logs s ++ (if cdsDebug (world s)
                                   then [Infof_req (node s1) (peerAddr s) discReq]
                                   else [])).
Proof.
  simpl. unfold requestBranch.
  destruct (req_Node discReq) as [n|]; [|by left].
  destruct (ParseServiceNode (Id n)) as [nt|err] eqn:Hparse;
    [|right; left; by exists n, err].
  right. right.
  set (s1 := if decide (node s = "") then with_node (connectionID (Id n)) s else s).
  assert (world s1 = world s ∧ con s1 = con s ∧ handler s1 = handler s ∧
          trace s1 = trace s ∧ peerAddr s1 = peerAddr s ∧
          initialRequestReceived s1 = initialRequestReceived s)
    as (Hw1 & Hc1 & Hh1 & Ht1 & Hp1 & Hi1) by (unfold s1; by case_decide).
  assert (world (update_con (set_modelNode (Some nt)) s1)
          = world (update_con (set_modelNode (Some nt)) s)) as Hw2.
  { unfold update_con. simpl. by rewrite Hw1, Hc1. }
  assert (builds s1 = builds s ∧ sends s1 = sends s ∧ logs s1 = logs s) as (Hb1 & Hs1 & Hl1).
  { unfold builds, sends, logs. by rewrite Ht1. }
  change (initialRequestReceived (update_con (set_modelNode (Some nt)) s1))
    with (initialRequestReceived s1). rewrite Hi1.
  destruct (initialRequestReceived s) eqn:Hinit.
  - left. exists n, nt.
    destruct (req_ErrorDetail discReq); simpl; rewrite Hw1;
      destruct (cdsDebug (world s)); simpl;
      rewrite ?Hw2; repeat split; try done;
      unfold builds, sends in *; simpl; rewrite ?omap_app, ?Ht1; simpl;
      by rewrite ?(right_id_L [] (++)).
  - right. exists n, nt. simpl. rewrite Hw1.
    destruct (cdsDebug (world s)); simpl; eexists; (split; [done|]); (split; [done|]);
      (split; [done|]); (split; [reflexivity|]); simpl;
      rewrite ?Hw2; repeat split; try done;
      unfold builds, sends, logs in *; simpl; rewrite ?omap_app, ?Ht1, ?Hp1; simpl;
      by rewrite ?(right_id_L [] (++)).
Qed.

(** What the request branch does to the heap: at most, it attaches an
    identity to the connection of the stream. *)
Lemma requestBranch_world (o : Oracle) (discReq : DiscoveryRequest) (s : Stream) :
  world (requestBranch o discReq s) = world s ∨
  ∃ nt, world (requestBranch o discReq s)
        = world (update_con (set_modelNode (Some nt)) s).
Proof.
  destruct (requestBranch_cases o discReq s)
    as [[_ ->]|[(n & err & _ & _ & ->)|[(n & nt & _ & _ & _ & Hw & _)
       |(n & nt & s4 & _ & _ & _ & -> & Hw & _)]]].
  - by left.
  - left. simpl. destruct (req_Node discReq); [by case_decide|done].
  - right. by exists nt.
  - right. exists nt. by rewrite (proj1 (pushResponse_frame o s4)).
Qed.

Lemma push_channels_ok_alter (f : CdsConnection → CdsConnection) (c : loc) (w : World) :
  (∀ conn, heap w !! c = Some conn →
     chan_cap (pushChannel (f conn)) = 1 ∧ pending (pushChannel (f conn)) ≤ 1) →
  push_channels_ok w → push_channels_ok (set_heap (alter f c (heap w)) w).
Proof.
  intros Hf Hok c' conn'. simpl. destruct (decide (c' = c)) as [->|Hne].
  - rewrite lookup_alter_eq. destruct (heap w !! c) as [conn|] eqn:Hc; [|done].
    simpl. intros [= <-]. by apply Hf.
  - rewrite lookup_alter_ne by done. apply Hok.
Qed.

Lemma step_push_channels_ok (a : Action) (s : Stream) :
  push_channels_ok (world s) → push_channels_ok (world (step a s)).
Proof.
  intros Hok. destruct a as [[req|err]|  |o|o| | |b]; simpl.
  - by destruct (reader s).
  - destruct (reader s); try done. unfold readerRecv. simpl. by case_decide.
  - unfold readerSend. destruct (reader s); try done. by destruct (chan_send _ _).
  - destruct (handler s); [|done..]. unfold selectReq.
    destruct (chan_recv (reqChannel s)) as [r ch| |]; [|done..].
    destruct (requestBranch_world o r (with_reqChannel ch s)) as [->|[nt ->]]; [done|].
    simpl. apply push_channels_ok_alter; [|done]. intros conn Hc. simpl in *.
    by apply (Hok (con s)).
  - destruct (handler s); [|done..]. unfold selectPush.
    destruct (the_con s) as [c|] eqn:Hc; [|done].
    destruct (chan_recv (pushChannel c)) as [v ch| |] eqn:Hr; [|done..].
    rewrite (proj1 (pushResponse_frame o _)). simpl.
    apply chan_recv_val in Hr as (Hb & Hcap & _).
    apply push_channels_ok_alter; [|done]. intros conn Hc'. simpl.
    unfold the_con in Hc. rewrite Hc in Hc'. injection Hc' as <-.
    destruct (Hok _ _ Hc) as [Hc1 Hp1]. unfold pending in *.
    rewrite Hb in Hp1. simpl in Hp1. split; [congruence|lia].
  - unfold signal. destruct (the_con s) as [c|] eqn:Hc; [|done].
    destruct (chan_send true (pushChannel c)) as [ch| |] eqn:Hs; [|done..].
    apply chan_send_ok in Hs as (_ & Hlt & ->). simpl.
    apply push_channels_ok_alter; [|done]. intros conn Hc'. simpl.
    unfold the_con in Hc. rewrite Hc in Hc'. injection Hc' as <-.
    destruct (Hok _ _ Hc) as [Hc1 Hp1]. unfold pending in *. simpl.
    rewrite length_app. simpl. split; [done|lia].
  - by apply trigger_inv.
  - done.
Qed.

(** X6.  If no connection of the world has more than one signal buffered
    when a stream is opened, none ever has, whatever the stream, its
    reader, senders on its channel, broadcasts and the debug endpoint do
    afterwards; the channel of the new connection has capacity one. *)
Theorem push_channels_bounded_in_every_run
    (w : World) (peer : option string) (now : Time) (acts : list Action) :
  push_channels_ok w →
  push_channels_ok (world (StreamClusters w peer now acts)).
Proof.
  intros Hok. unfold StreamClusters.
  induction acts as [|a acts IH] using rev_ind.
  - simpl. intros c conn. simpl.
    destruct (decide (c = fresh (dom (heap w)))) as [->|Hne].
    + rewrite lookup_insert_eq. intros [= <-]. unfold pending. simpl. split; [done|lia].
    + rewrite lookup_insert_ne by done. apply Hok.
  - rewrite run_snoc. by apply step_push_channels_ok.
Qed.

Lemma step_reader_state (a : Action) (s : Stream) :
  reader_alive s ∨ (∃ err, reader_failed err s) →
  reader_alive (step a s) ∨ (∃ err, reader_failed err (step a s)).
Proof.
  intros [Ha|[err Hf]]; [|right; exists err; by apply step_reader_failed].
  destruct a as [[req|err]|  |o|o| | |b].
  2:{ simpl. destruct (reader s) eqn:Hr; [|by left..].
      right. exists err. by apply readerRecv_failed. }
  all: match goal with
       | |- reader_alive (step ?a _) ∨ _ =>
           destruct (step_reader_alive a s Ha) as [Ha'|Hd]; [by left|]
       end; exfalso; destruct Ha as (Hrd & _).
  - simpl in Hd. revert Hd Hrd. destruct (reader s) eqn:Hr; simpl; rewrite ?Hr; congruence.
  - simpl in Hd. unfold readerSend in Hd. revert Hd Hrd.
    destruct (reader s) eqn:Hr; rewrite ?Hr; try congruence.
    destruct (chan_send _ _); simpl; rewrite ?Hr; congruence.
  - destruct (step_main_channel (SelectReq o) s) as (H1 & _); [done..|]. congruence.
  - destruct (step_main_channel (SelectPush o) s) as (H1 & _); [done..|]. congruence.
  - destruct (step_main_channel Signal s) as (H1 & _); [done..|]. congruence.
  - destruct (step_main_channel Broadcast s) as (H1 & _); [done..|]. congruence.
  - destruct (step_main_channel (SetDebug b) s) as (H1 & _); [done..|]. congruence.
Qed.

Lemma run_reader_state (w : World) (peer : option string) (now : Time)
    (acts : list Action) :
  reader_alive (StreamClusters w peer now acts) ∨
  ∃ err, reader_failed err (StreamClusters w peer now acts).
Proof.
  unfold StreamClusters. induction acts as [|a acts IH] using rev_ind.
  - left. apply open_reader_alive.
  - rewrite run_snoc. by apply step_reader_state.
Qed.

(** X7.  In every run of a stream the request channel has capacity one and
    buffers at most one request.  The reader can hold one more request in
    its send: that send completes only when the buffer is empty, it waits
    while the buffer is full, and the reader does not call [Recv] again
    before it has completed, so at most two requests are in flight.  The
    channel is closed exactly when the reader has returned, and no error
    is recorded before that. *)
Theorem request_channel_bounded_in_every_run
    (w : World) (peer : option string) (now : Time) (acts : list Action) :
  let s := StreamClusters w peer now acts in
  chan_cap (reqChannel s) = 1 ∧
  length (chan_buf (reqChannel s)) ≤ 1 ∧
  (chan_closed (reqChannel s) = true ↔ reader s = ReaderDone) ∧
  (reader s ≠ ReaderDone → receiveError s = None) ∧
  (∀ req, reader s = InSend req →
     (∀ r, step (Recv r) s = s) ∧
     (length (chan_buf (reqChannel s)) = 1 → step Enqueue s = s) ∧
     (chan_buf (reqChannel s) = [] →
        chan_buf (reqChannel (step Enqueue s)) = [req] ∧
        reader (step Enqueue s) = InRecv)).
Proof.
  intros s. pose proof (run_reader_state w peer now acts) as Hinv.
  change (StreamClusters w peer now acts) with s in Hinv. clearbody s.
  destruct Hinv as [(Hrd & Hcl & Hcap & Hlen & He)|[err (Hrd & Hcl & Hcap & Hlen & He)]].
  - split; [done|]. split; [done|]. split; [by rewrite Hcl|]. split; [done|].
    intros req Hsend. split; [|split].
    + intros r. simpl. by rewrite Hsend.
    + intros Hfull. simpl. unfold readerSend, chan_send. rewrite Hsend, Hcl.
      rewrite decide_False by lia. done.
    + intros Hempty. simpl. unfold readerSend, chan_send. rewrite Hsend, Hcl, Hempty.
      rewrite decide_True by (simpl; lia). done.
  - split; [done|]. split; [done|]. split; [done|]. split; [done|].
    intros req Hsend. congruence.
Qed.

Lemma step_node (a : Action) (s : Stream) :
  node s ≠ "" → node (step a s) = node s.
Proof.
  intros Hn. destruct a as [[req|err]|  |o|o| | |b]; simpl.
  - by destruct (reader s).
  - destruct (reader s); try done. unfold readerRecv. simpl. by case_decide.
  - unfold readerSend. destruct (reader s); try done. by destruct (chan_send _ _).
  - destruct (handler s); [|done..]. unfold selectReq.
    destruct (chan_recv (reqChannel s)) as [r ch| |]; [|done..].
    assert (∀ n, (if decide (node s = "") then with_node (connectionID (Id n)) s else s) = s)
      as Hs1 by (intros n; by rewrite decide_False).
    destruct (requestBranch_cases o r (with_reqChannel ch s))
      as [[_ ->]|[(n & err & Hnode & _ & ->)|[(n & nt & Hnode & _ & _ & _ & _ & _ & _ & _ & ->)
         |(n & nt & s4 & Hnode & _ & _ & -> & _ & _ & _ & _ & _ & _ & Hn4 & _)]]];
      simpl in *; rewrite ?Hnode in *; simpl.
    + done.
    + by rewrite decide_False.
    + by rewrite decide_False.
    + destruct (pushResponse_frame o s4) as (_ & _ & _ & -> & _). rewrite Hn4.
      by rewrite decide_False.
  - destruct (handler s); [|done..]. unfold selectPush.
    destruct (the_con s) as [c|]; [|done].
    destruct (chan_recv (pushChannel c)) as [v ch| |]; [|done..].
    by rewrite (proj1 (proj2 (proj2 (proj2 (pushResponse_frame o _))))).
  - unfold signal. destruct (the_con s) as [c|]; [|done].
    by destruct (chan_send true (pushChannel c)).
  - done.
  - done.
Qed.

(** X8.  The key [node] of a stream is taken from the first request that
    carries a node, as [connectionID] of its id, and once it is non-empty
    no later request or event changes it. *)
Theorem node_key_assigned_once (s : Stream) :
  (∀ o discReq n, node s = "" → req_Node discReq = Some n →
     node (requestBranch o discReq s) = connectionID (Id n)) ∧
  (node s ≠ "" → ∀ acts, node (run acts s) = node s).
Proof.
  split.
  - intros o discReq n Hempty Hnode.
    destruct (requestBranch_cases o discReq s)
      as [[Hno _]|[(n' & err & Hn' & _ & ->)|[(n' & nt & Hn' & _ & _ & _ & _ & _ & _ & _ & ->)
         |(n' & nt & s4 & Hn' & _ & _ & -> & _ & _ & _ & _ & _ & _ & Hn4 & _)]]];
      rewrite Hnode in *; try done; injection Hn' as <-; simpl.
    + by rewrite decide_True.
    + by rewrite decide_True.
    + destruct (pushResponse_frame o s4) as (_ & _ & _ & -> & _). rewrite Hn4.
      by rewrite decide_True.
  - intros Hn acts. induction acts as [|a acts IH] using rev_ind; [done|].
    rewrite run_snoc, step_node; [done|]. by rewrite IH.
Qed.

(** X9.  The initial request of a stream, when its node parses, the
    clusters marshal and the send succeeds: the identity parsed from the
    request is attached, the generator is called once with that identity,
    one response is sent that carries the cluster type URL, the version and
    nonce of the call and the marshalled clusters, the handler goes on with
    [initialRequestReceived] set, and the request and the push are logged
    when [cdsDebug] is set. *)
Theorem initial_request_is_answered
    (o : Oracle) (discReq : DiscoveryRequest) (n : Node) (nt : Proxy)
    (anys : list Any) (s : Stream) :
  initialRequestReceived s = false →
  is_Some (the_con s) →
  req_Node discReq = Some n →
  ParseServiceNode (Id n) = inl nt →
  marshalAll (build_result o).1 = Some anys →
  send_error o = None →
  let s' := requestBranch o discReq s in
  initialRequestReceived s' = true ∧
  identity s' = Some nt ∧
  builds s' = builds s ++ [nt] ∧
  sends s' = sends s ++ [MkDiscoveryResponse clusterType (version_now o) (nonce_now o) anys] ∧
  handler s' = handler s ∧
  logs s' = logs s ++ (if cdsDebug (world s)
                       then [Infof_req (node s') (peerAddr s) discReq;
                             Infof_push (node s') (peerAddr s) (build_result o).1]
                       else []).
Proof.
  intros Hinit [c Hc] Hnode Hparse Hm Hsend. simpl.
  destruct (requestBranch_cases o discReq s)
    as [[Hno _]|[(n' & err & Hn' & Hp' & _)|[(n' & nt' & _ & _ & Hi' & _)
       |(n' & nt' & s4 & Hn' & Hp' & _ & -> & Hw4 & Hc4 & Hh4 & Hb4 & Hs4 & Hi4 & Hn4 & Hpa4
          & Hl4)]]]; try congruence.
  rewrite Hnode in Hn'. injection Hn' as <-. rewrite Hparse in Hp'. injection Hp' as <-.
  assert (identity s4 = Some nt) as Hid4.
  { unfold identity, the_con. rewrite Hw4, Hc4. simpl. rewrite lookup_alter_eq.
    unfold the_con in Hc. by rewrite Hc. }
  destruct (pushResponse_frame o s4) as (Hw & _ & _ & Hn & Hi & _).
  destruct (pushResponse_cases o s4)
    as [[Hnone _]|[(p & _ & Hmn & _)|(p & anys' & Hp & Hm' & Hb & Hs & Hh & Hl)]];
    try congruence.
  rewrite Hid4 in Hp. injection Hp as <-. rewrite Hm in Hm'. injection Hm' as <-.
  rewrite Hsend in Hh, Hl.
  rewrite Hi, Hi4, pushResponse_identity, Hid4, Hb, Hb4, Hs, Hs4, Hh, Hh4, Hl, Hl4, Hn, Hn4.
  repeat split; try done.
  assert (cdsDebug (world s4) = cdsDebug (world s)) as -> by (by rewrite Hw4).
  rewrite Hpa4. simpl. rewrite Hnode.
  destruct (cdsDebug (world s)); simpl; by rewrite ?(right_id_L [] (++)), <-?(assoc_L (++)).
Qed.

(** X10.  The push case of the main loop.  With no signal buffered the
    case is not ready and nothing happens.  With a signal buffered, an
    identity attached and clusters that marshal, the signal is taken off
    the channel, the generator is called with the attached identity and one
    response is sent; the handler goes on when the send succeeds, and
    returns the error of the send, after logging a warning, when it
    fails. *)
Theorem push_signal_is_answered (o : Oracle) (s : Stream) (c : CdsConnection) :
  the_con s = Some c →
  (chan_buf (pushChannel c) = [] → selectPush o s = s) ∧
  (∀ v rest proxy anys,
     chan_buf (pushChannel c) = v :: rest →
     modelNode c = Some proxy →
     marshalAll (build_result o).1 = Some anys →
     let s' := selectPush o s in
     push_channel_of s'
     = Some (MkChan (chan_cap (pushChannel c)) rest (chan_closed (pushChannel c))) ∧
     identity s' = Some proxy ∧
     builds s' = builds s ++ [proxy] ∧
     sends s' = sends s
                ++ [MkDiscoveryResponse clusterType (version_now o) (nonce_now o) anys] ∧
     handler s' = match send_error o with
                  | Some err => Returned (Some err)
                  | None => handler s
                  end ∧
     logs s' = logs s ++ match send_error o with
                         | Some err => [Warnf_send_failure err]
                         | None => if cdsDebug (world s)
                                   then [Infof_push (node s) (peerAddr s) (build_result o).1]
                                   else []
                         end).
Proof.
  intros Hc. unfold selectPush. rewrite Hc. split.
  - intros Hb. unfold chan_recv. rewrite Hb. by destruct (chan_closed (pushChannel c)).
  - intros v rest proxy anys Hb Hmn Hm. unfold chan_recv. rewrite Hb. simpl.
    set (s1 := update_con _ s).
    assert (the_con s1 = Some (set_pushChannel
              (MkChan (chan_cap (pushChannel c)) rest (chan_closed (pushChannel c))) c))
      as Hc1.
    { unfold s1, the_con, update_con. simpl. rewrite lookup_alter_eq.
      unfold the_con in Hc. by rewrite Hc. }
    assert (identity s1 = Some proxy) as Hid1.
    { unfold identity. rewrite Hc1. simpl. done. }
    destruct (pushResponse_frame o s1) as (Hw & _ & Hcon & _).
    destruct (pushResponse_cases o s1)
      as [[Hnone _]|[(p & _ & Hmn' & _)|(p & anys' & Hp & Hm' & Hbs & Hss & Hh & Hl)]];
      try congruence.
    rewrite Hid1 in Hp. injection Hp as <-. rewrite Hm in Hm'. injection Hm' as <-.
    rewrite pushResponse_identity, Hid1, Hbs, Hss, Hh, Hl.
    repeat split; try done.
    unfold push_channel_of, the_con. rewrite Hw, Hcon. fold (the_con s1). by rewrite Hc1.
Qed.

Lemma step_terminated (a : Action) (s : Stream) :
  handler s ≠ Running →
  handler (step a s) = handler s ∧ builds (step a s) = builds s ∧
  sends (step a s) = sends s ∧ identity (step a s) = identity s ∧
  initialRequestReceived (step a s) = initialRequestReceived s.
Proof.
  intros Hh. destruct a as [[req|err]|  |o|o| | |b]; simpl.
  - by destruct (reader s).
  - destruct (reader s); try done. unfold readerRecv. simpl.
    case_decide; simpl; trace_simpl; done.
  - unfold readerSend. destruct (reader s); try done. by destruct (chan_send _ _).
  - destruct (handler s) eqn:Hr; [congruence|by rewrite Hr..].
  - destruct (handler s) eqn:Hr; [congruence|by rewrite Hr..].
  - unfold signal. destruct (the_con s) as [c|] eqn:Hc; [|done].
    destruct (chan_send true (pushChannel c)); [|done..].
    rewrite identity_update_con, Hc. unfold identity. by rewrite Hc.
  - repeat split; try done. unfold identity, the_con. simpl.
    by rewrite (proj2 (proj2 (trigger_model (world s)))).
  - done.
Qed.

(** X11.  Once the handler has returned or crashed it stays so: in every
    continuation of the run, whatever the reader, senders, broadcasts and
    the debug endpoint do, the result of the handler is the same, the
    generator is not called again, nothing more is sent and the identity
    of the connection is as it was. *)
Theorem terminated_handler_stays_silent (s : Stream) (acts : list Action) :
  handler s ≠ Running →
  handler (run acts s) = handler s ∧ builds (run acts s) = builds s ∧
  sends (run acts s) = sends s ∧ identity (run acts s) = identity s.
Proof.
  intros Hh.
  assert (handler (run acts s) = handler s ∧ builds (run acts s) = builds s ∧
          sends (run acts s) = sends s ∧ identity (run acts s) = identity s ∧
          initialRequestReceived (run acts s) = initialRequestReceived s) as Hall.
  { induction acts as [|a acts IH] using rev_ind; [done|].
    rewrite run_snoc. destruct IH as (IH1 & IH2 & IH3 & IH4 & IH5).
    destruct (step_terminated a (run acts s)) as (H1 & H2 & H3 & H4 & H5); [congruence|].
    rewrite H1, H2, H3, H4, H5. done. }
  destruct Hall as (? & ? & ? & ? & _). done.
Qed.

Lemma pushResponse_counts (o : Oracle) (s : Stream) :
  handler s = Running → length (builds s) = length (sends s) →
  let s' := pushResponse o s in
  (handler s' = Running ∧ length (builds s') = length (sends s')) ∨
  (handler s' ≠ Running ∧ length (sends s') ≤ length (builds s') ∧
   length (builds s') ≤ length (sends s') + 1).
Proof.
  intros Hrun Heq. simpl.
  destruct (pushResponse_cases o s)
    as [[_ ->]|[(p & _ & _ & ->)|(p & anys & _ & _ & Hb & Hs & Hh & _)]].
  - right. simpl. split; [done|]. change (builds (with_handler Crashed s)) with (builds s).
    change (sends (with_handler Crashed s)) with (sends s). lia.
  - right. split; [done|].
    change (builds (with_handler Crashed ?x)) with (builds x).
    change (sends (with_handler Crashed ?x)) with (sends x).
    rewrite length_builds_emit, length_sends_emit, !length_app. simpl. lia.
  - rewrite Hb, Hs, !length_app, Hh. simpl.
    destruct (send_error o); [right|left]; split; try done; lia.
Qed.

Lemma step_counts (a : Action) (s : Stream) :
  handler s = Running → length (builds s) = length (sends s) →
  (handler (step a s) = Running ∧ length (builds (step a s)) = length (sends (step a s))) ∨
  (handler (step a s) ≠ Running ∧ length (sends (step a s)) ≤ length (builds (step a s)) ∧
   length (builds (step a s)) ≤ length (sends (step a s)) + 1).
Proof.
  intros Hrun Heq. destruct a as [[req|err]|  |o|o| | |b]; simpl.
  - left. by destruct (reader s).
  - left. destruct (reader s); try done. unfold readerRecv. simpl.
    case_decide; simpl; (split; [done|]); trace_simpl; by unfold builds, sends in Heq.
  - left. unfold readerSend. destruct (reader s); try done. by destruct (chan_send _ _).
  - rewrite Hrun. unfold selectReq.
    destruct (chan_recv (reqChannel s)) as [r ch| |];
      [|right; split; [done|unfold builds, sends in *; simpl; lia]|by left].
    set (s0 := with_reqChannel ch s).
    destruct (requestBranch_cases o r s0)
      as [[_ ->]|[(n & err & _ & _ & ->)|[(n & nt & _ & _ & _ & _ & Hh & Hb & Hs & _)
         |(n & nt & s4 & _ & _ & _ & -> & _ & _ & Hh4 & Hb4 & Hs4 & _)]]].
    + right. split; [done|]. change (builds (with_handler Crashed s0)) with (builds s).
      change (sends (with_handler Crashed s0)) with (sends s). lia.
    + right. split; [done|].
      match goal with
      | |- context [with_handler ?h ?x] =>
          assert (builds (with_handler h x) = builds s ∧ sends (with_handler h x) = sends s)
            as [-> ->]
            by (destruct (req_Node r); [case_decide|]; done)
      end. lia.
    + left. rewrite Hh, Hb, Hs. done.
    + apply pushResponse_counts; [by rewrite Hh4|by rewrite Hb4, Hs4].
  - rewrite Hrun. unfold selectPush.
    destruct (the_con s) as [c|]; [|by left].
    destruct (chan_recv (pushChannel c)) as [v ch| |]; [|by left..].
    by apply pushResponse_counts.
  - left. unfold signal. destruct (the_con s) as [c|]; [|done].
    by destruct (chan_send true (pushChannel c)).
  - by left.
  - by left.
Qed.

(** Counting only: while the handler runs there are as many calls of the
    generator as responses, and when it has stopped there is at most one
    call more, the one whose clusters did not marshal. *)
Theorem every_response_has_its_generator_call
    (w : World) (peer : option string) (now : Time) (acts : list Action) :
  let s := StreamClusters w peer now acts in
  length (sends s) ≤ length (builds s) ∧
  length (builds s) ≤ length (sends s) + 1 ∧
  (handler s = Running → length (builds s) = length (sends s)).
Proof.
  simpl. unfold StreamClusters.
  assert ((handler (run acts (StreamClusters_open w peer now)) = Running ∧
           length (builds (run acts (StreamClusters_open w peer now)))
           = length (sends (run acts (StreamClusters_open w peer now)))) ∨
          (handler (run acts (StreamClusters_open w peer now)) ≠ Running ∧
           length (sends (run acts (StreamClusters_open w peer now)))
           ≤ length (builds (run acts (StreamClusters_open w peer now))) ∧
           length (builds (run acts (StreamClusters_open w peer now)))
           ≤ length (sends (run acts (StreamClusters_open w peer now))) + 1)) as Hinv.
  { induction acts as [|a acts IH] using rev_ind; [by left|].
    rewrite run_snoc. destruct IH as [[Hrun Heq]|(Hstop & H1 & H2)].
    - by apply step_counts.
    - right. destruct (step_terminated a _ Hstop) as (-> & -> & -> & _). done. }
  destruct Hinv as [[Hrun Heq]|(Hstop & H1 & H2)].
  - split; [lia|]. split; [lia|done].
  - split; [done|]. split; [done|]. intros Hr. by destruct Hstop.
Qed.

Lemma step_con (a : Action) (s : Stream) : con (step a s) = con s.
Proof.
  destruct a as [[req|err]|  |o|o| | |b]; simpl.
  - by destruct (reader s).
  - destruct (reader s); try done. unfold readerRecv. simpl. by case_decide.
  - unfold readerSend. destruct (reader s); try done. by destruct (chan_send _ _).
  - destruct (handler s); [|done..]. unfold selectReq.
    destruct (chan_recv (reqChannel s)) as [r ch| |]; [|done..].
    by destruct (requestBranch_frame o r (with_reqChannel ch s)) as (_ & _ & _ & -> & _).
  - destruct (handler s); [|done..]. unfold selectPush.
    destruct (the_con s) as [c|]; [|done].
    destruct (chan_recv (pushChannel c)) as [v ch| |]; [|done..].
    by destruct (pushResponse_frame o (update_con (set_pushChannel ch) s)) as (_ & _ & -> & _).
  - unfold signal. destruct (the_con s) as [c|]; [|done].
    by destruct (chan_send true (pushChannel c)).
  - done.
  - done.
Qed.

Lemma push_channel_of_world (s s0 : Stream) (nt : Proxy) :
  world s0 = world (update_con (set_modelNode (Some nt)) s) → con s0 = con s →
  push_channel_of s0 = push_channel_of s.
Proof.
  intros Hw Hc. unfold push_channel_of, the_con. rewrite Hw, Hc. simpl.
  rewrite lookup_alter_eq. by destruct (heap (world s) !! con s).
Qed.

(** What one request does to the push channel and to the responses. *)
Lemma requestBranch_single (o : Oracle) (discReq : DiscoveryRequest) (s : Stream) :
  let s' := requestBranch o discReq s in
  push_channel_of s' = push_channel_of s ∧
  (initialRequestReceived s = true →
     sends s' = sends s ∧ initialRequestReceived s' = true) ∧
  (initialRequestReceived s = false →
     (sends s' = sends s ∧ initialRequestReceived s' = false) ∨
     (initialRequestReceived s' = true ∧ length (sends s') ≤ length (sends s) + 1)).
Proof.
  simpl.
  destruct (requestBranch_frame o discReq s) as (_ & _ & _ & Hcon & _).
  destruct (requestBranch_cases o discReq s)
    as [[_ Heq]|[(n & err & Hn & _ & Heq)|[(n & nt & _ & _ & Hi & Hw & _ & _ & Hs & Hi' & _)
       |(n & nt & s4 & _ & _ & Hi & Heq & Hw4 & Hc4 & _ & _ & Hs4 & Hi4 & _)]]].
  - rewrite Heq. repeat split; try done. intros Hf. by left.
  - rewrite Heq, Hn. simpl. case_decide; repeat split; try done; intros Hf; by left.
  - split; [by apply (push_channel_of_world s _ nt)|]. split; [done|congruence].
  - destruct (pushResponse_frame o s4) as (Hw & _ & Hc & _ & Hi5 & _).
    rewrite Heq. split; [|split; [congruence|]].
    + apply (push_channel_of_world s _ nt); [by rewrite Hw|by rewrite Hc].
    + intros _. right. split; [by rewrite Hi5|].
      destruct (pushResponse_cases o s4)
        as [[_ ->]|[(p & _ & _ & ->)|(p & anys & _ & _ & _ & -> & _)]].
      * change (sends (with_handler Crashed s4)) with (sends s4). rewrite Hs4. lia.
      * change (sends (with_handler Crashed ?x)) with (sends x).
        rewrite length_sends_emit, Hs4, length_app. simpl. lia.
      * rewrite Hs4, length_app. simpl. lia.
Qed.

Lemma step_single (a : Action) (s : Stream) :
  a ≠ Signal →
  ¬ registered (con s) (world s) →
  push_channel_of s = Some (make_chan bool 1) →
  length (sends s) ≤ 1 →
  (initialRequestReceived s = false → sends s = []) →
  push_channel_of (step a s) = Some (make_chan bool 1) ∧
  length (sends (step a s)) ≤ 1 ∧
  (initialRequestReceived (step a s) = false → sends (step a s) = []).
Proof.
  intros Hsig Hreg Hch Hlen Hinit.
  assert (∀ s0, world s0 = world s → con s0 = con s → sends s0 = sends s →
                initialRequestReceived s0 = initialRequestReceived s →
                push_channel_of s0 = Some (make_chan bool 1) ∧
                length (sends s0) ≤ 1 ∧
                (initialRequestReceived s0 = false → sends s0 = [])) as Hsame.
  { intros s0 Hw Hc Hs Hi. unfold push_channel_of, the_con. rewrite Hw, Hc, Hs, Hi. done. }
  destruct a as [[req|err]|  |o|o| | |b]; try done.
  - simpl. destruct (reader s); by apply Hsame.
  - simpl. destruct (reader s); try by apply Hsame.
    apply Hsame; unfold readerRecv; simpl; try (by case_decide).
    case_decide; trace_simpl; done.
  - simpl. unfold readerSend. destruct (reader s); try by apply Hsame.
    destruct (chan_send _ _); by apply Hsame.
  - simpl. destruct (handler s); try by apply Hsame. unfold selectReq.
    destruct (chan_recv (reqChannel s)) as [r ch| |]; try by apply Hsame.
    destruct (requestBranch_single o r (with_reqChannel ch s)) as (Hp & Ht & Hf).
    change (push_channel_of (with_reqChannel ch s)) with (push_channel_of s) in Hp.
    change (sends (with_reqChannel ch s)) with (sends s) in *.
    change (initialRequestReceived (with_reqChannel ch s))
      with (initialRequestReceived s) in *.
    rewrite Hp. split; [done|].
    destruct (initialRequestReceived s) eqn:Hi.
    + destruct (Ht eq_refl) as [-> ->]. split; [done|]. done.
    + destruct (Hf eq_refl) as [[-> ->]|[-> Hle]].
      * split; [done|]. intros _. by apply Hinit.
      * rewrite (Hinit eq_refl) in Hle. simpl in Hle. split; [lia|done].
  - simpl. destruct (handler s); try by apply Hsame. unfold selectPush.
    pose proof Hch as Hch'. unfold push_channel_of in Hch'.
    destruct (the_con s) as [c|] eqn:Hc; [|done].
    simpl in Hch'. injection Hch' as Hch'. rewrite Hch'. simpl. by apply Hsame.
  - simpl. unfold push_channel_of, the_con. simpl.
    rewrite trigger_unregistered by done. done.
Qed.

(** X13.  A stream opened in a world whose registry holds only allocated
    connections, and on whose push channel no outside goroutine sends:
    broadcasts never reach it, its push channel stays empty, and it sends
    at most one response in its life, the answer to its initial
    request. *)
Theorem one_response_without_outside_signal
    (w : World) (peer : option string) (now : Time) (acts : list Action) :
  world_wf w →
  Signal ∉ acts →
  let s := StreamClusters w peer now acts in
  push_channel_of s = Some (make_chan bool 1) ∧
  length (sends s) ≤ 1 ∧
  (initialRequestReceived s = false → sends s = []).
Proof.
  intros Hwf Hno. simpl. unfold StreamClusters.
  assert (∀ acts, ¬ registered (con (run acts (StreamClusters_open w peer now)))
                    (world (run acts (StreamClusters_open w peer now)))) as Hunreg.
  { intros acts0.
    assert (con (run acts0 (StreamClusters_open w peer now)) = fresh (dom (heap w))) as Hc.
    { induction acts0 as [|a acts0 IH] using rev_ind; [done|].
      by rewrite run_snoc, step_con. }
    intros [k Hk]. rewrite run_registry in Hk. simpl in Hk.
    rewrite Hc in Hk. apply Hwf in Hk. apply elem_of_dom in Hk. by apply is_fresh in Hk. }
  induction acts as [|a acts IH] using rev_ind.
  - unfold push_channel_of, the_con. simpl. rewrite lookup_insert_eq. simpl.
    split; [done|]. split; [lia|done].
  - apply not_elem_of_app in Hno as [Hno Ha]. apply not_elem_of_cons in Ha as [Ha _].
    destruct (IH Hno) as (H1 & H2 & H3).
    rewrite run_snoc. apply step_single; [congruence|apply Hunreg|done..].
Qed.

(** A request goes from [stream.Recv] through the request channel to the
    request branch unchanged. *)
Lemma deliver_request (o : Oracle) (discReq : DiscoveryRequest) (s : Stream) :
  reader s = InRecv → handler s = Running →
  reqChannel s = make_chan DiscoveryRequest 1 →
  run [Recv (inl discReq); Enqueue; SelectReq o] s = requestBranch o discReq s.
Proof.
  intros Hrd Hrun Hq. destruct s as [w pa c nd ini re q rd h tr].
  simpl in Hrd, Hrun, Hq. subst rd h q. reflexivity.
Qed.

(** X14.  With the reader waiting in [Recv], the request channel empty and
    the main loop running, a request that arrives, is put on the channel
    and is taken by the main loop is handled exactly as received; after
    that the channel is empty again and the reader is back in [Recv]. *)
Theorem request_is_handed_over (o : Oracle) (discReq : DiscoveryRequest) (s : Stream) :
  reader s = InRecv →
  handler s = Running →
  reqChannel s = make_chan DiscoveryRequest 1 →
  let s' := run [Recv (inl discReq); Enqueue; SelectReq o] s in
  s' = requestBranch o discReq s ∧
  reqChannel s' = make_chan DiscoveryRequest 1 ∧
  reader s' = InRecv.
Proof.
  intros Hrd Hrun Hq s'. unfold s'. rewrite deliver_request by done.
  destruct (requestBranch_frame o discReq s) as (_ & _ & _ & _ & _ & -> & ->). done.
Qed.

(** X15.  A request without a node crashes the handler, whether it is the
    first of the stream or a later one: [discReq.Node.Id] is read through
    the nil pointer.  Nothing is logged, sent or changed before that. *)
Theorem request_without_node_crashes (o : Oracle) (discReq : DiscoveryRequest) (s : Stream) :
  reader s = InRecv →
  handler s = Running →
  reqChannel s = make_chan DiscoveryRequest 1 →
  req_Node discReq = None →
  run [Recv (inl discReq); Enqueue; SelectReq o] s = with_handler Crashed s.
Proof.
  intros Hrd Hrun Hq Hnode. rewrite deliver_request by done.
  unfold requestBranch. by rewrite Hnode.
Qed.

End StreamCoverage.

(** *** The same at concrete streams *)

Lemma push_channels_bounded_in_every_run_witness :
  push_channels_ok Inputs.one_idle ∧
  push_channels_ok
    (world (StreamClusters Inputs.one_idle (Some "10.0.0.9:5000") 3%Z
              MoreInputs.busy_schedule)).
Proof.
  split; [exact one_idle_ok|].
  exact (push_channels_bounded_in_every_run Inputs.one_idle (Some "10.0.0.9:5000") 3%Z
           MoreInputs.busy_schedule one_idle_ok).
Defined.

Lemma node_key_assigned_once_witness :
  node Inputs.active ≠ "" ∧
  node (run MoreInputs.aftermath Inputs.active) = node Inputs.active.
Proof.
  assert (node Inputs.active ≠ "") as Hn by (vm_compute; intros E; discriminate E).
  split; [exact Hn|].
  exact (proj2 (node_key_assigned_once Inputs.active) Hn MoreInputs.aftermath).
Defined.

Lemma initial_request_is_answered_witness :
  initialRequestReceived Inputs.opened = false ∧
  sends (requestBranch Inputs.answer (Inputs.request "sidecar~a" None) Inputs.opened)
  = [MkDiscoveryResponse "type.googleapis.com/envoy.api.v2.Cluster" "v1" "n1"
       ["outbound|80||b.local"]].
Proof.
  assert (initialRequestReceived Inputs.opened = false) as Hi by (vm_compute; reflexivity).
  assert (is_Some (the_con Inputs.opened)) as Hc by (vm_compute; eexists; reflexivity).
  split; [exact Hi|].
  pose proof (initial_request_is_answered Inputs.answer (Inputs.request "sidecar~a" None)
                (MkNode "sidecar~a") ("sidecar~a" : Proxy) ["outbound|80||b.local"]
                Inputs.opened Hi Hc eq_refl eq_refl eq_refl eq_refl)
    as (_ & _ & _ & Hs & _).
  vm_compute in Hs. vm_compute. exact Hs.
Defined.

Lemma push_signal_is_answered_witness :
  the_con (step Signal Inputs.active) = Some MoreInputs.signalled_con ∧
  push_channel_of (selectPush Inputs.answer (step Signal Inputs.active))
  = Some (make_chan bool 1).
Proof.
  assert (the_con (step Signal Inputs.active) = Some MoreInputs.signalled_con) as Hc
    by (vm_compute; reflexivity).
  split; [exact Hc|].
  pose proof (proj2 (push_signal_is_answered Inputs.answer (step Signal Inputs.active)
                       MoreInputs.signalled_con Hc)
                true [] ("sidecar~a" : Proxy) ["outbound|80||b.local"]
                eq_refl eq_refl eq_refl) as (Hp & _).
  vm_compute in Hp. vm_compute. exact Hp.
Defined.

Lemma terminated_handler_stays_silent_witness :
  handler MoreInputs.returned ≠ Running ∧
  sends (run MoreInputs.aftermath MoreInputs.returned) = sends MoreInputs.returned.
Proof.
  assert (handler MoreInputs.returned ≠ Running) as Hh
    by (vm_compute; intros E; discriminate E).
  split; [exact Hh|].
  exact (proj1 (proj2 (proj2 (terminated_handler_stays_silent MoreInputs.returned
                                MoreInputs.aftermath Hh)))).
Defined.

Lemma empty_world_wf : world_wf Inputs.empty_world.
Proof. intros k c Hk. vm_compute in Hk. discriminate Hk. Defined.

Lemma busy_schedule_no_signal : Signal ∉ MoreInputs.busy_schedule.
Proof.
  unfold MoreInputs.busy_schedule. intros Hin.
  repeat first [ apply elem_of_cons in Hin; destruct Hin as [Hin|Hin]; [discriminate Hin|] ].
  by apply elem_of_nil in Hin.
Defined.

Lemma one_response_without_outside_signal_witness :
  world_wf Inputs.empty_world ∧
  (Signal ∉ MoreInputs.busy_schedule) ∧
  length (sends (StreamClusters Inputs.empty_world (Some "10.0.0.1:5000") 0%Z
                   MoreInputs.busy_schedule)) ≤ 1.
Proof.
  split; [exact empty_world_wf|]. split; [exact busy_schedule_no_signal|].
  exact (proj1 (proj2 (one_response_without_outside_signal Inputs.empty_world
                         (Some "10.0.0.1:5000") 0%Z MoreInputs.busy_schedule
                         empty_world_wf busy_schedule_no_signal))).
Defined.

Lemma request_is_handed_over_witness :
  reader Inputs.opened = InRecv ∧
  handler Inputs.opened = Running ∧
  reqChannel Inputs.opened = make_chan DiscoveryRequest 1 ∧
  run [Recv (inl (Inputs.request "sidecar~a" None)); Enqueue; SelectReq Inputs.answer]
    Inputs.opened
  = requestBranch Inputs.answer (Inputs.request "sidecar~a" None) Inputs.opened.
Proof.
  assert (reader Inputs.opened = InRecv) as Hrd by (vm_compute; reflexivity).
  assert (handler Inputs.opened = Running) as Hrun by (vm_compute; reflexivity).
  assert (reqChannel Inputs.opened = make_chan DiscoveryRequest 1) as Hq
    by (vm_compute; reflexivity).
  split; [exact Hrd|]. split; [exact Hrun|]. split; [exact Hq|].
  exact (proj1 (request_is_handed_over Inputs.answer (Inputs.request "sidecar~a" None)
                  Inputs.opened Hrd Hrun Hq)).
Defined.

Lemma request_without_node_crashes_witness :
  reader Inputs.active = InRecv ∧
  handler Inputs.active = Running ∧
  reqChannel Inputs.active = make_chan DiscoveryRequest 1 ∧
  req_Node MoreInputs.no_node = None ∧
  run [Recv (inl MoreInputs.no_node); Enqueue; SelectReq Inputs.answer] Inputs.active
  = with_handler Crashed Inputs.active.
Proof.
  assert (reader Inputs.active = InRecv) as Hrd by (vm_compute; reflexivity).
  assert (handler Inputs.active = Running) as Hrun by (vm_compute; reflexivity).
  assert (reqChannel Inputs.active = make_chan DiscoveryRequest 1) as Hq
    by (vm_compute; reflexivity).
  split; [exact Hrd|]. split; [exact Hrun|]. split; [exact Hq|]. split; [reflexivity|].
  exact (request_without_node_crashes Inputs.answer MoreInputs.no_node Inputs.active
           Hrd Hrun Hq eq_refl).
Defined.

(** ** Order of calls and sends, nil identities, and the end of a stream *)

Section Ordering.
Context `{Collaborators}.

Lemma calls_then_sends_app (p : bool) (t1 t2 : list Event) :
  calls_then_sends p (t1 ++ t2)
  = calls_then_sends p t1 && calls_then_sends (pending_after p t1) t2.
Proof.
  revert p. induction t1 as [|e t1 IH]; intros p; simpl; [done|].
  destruct e; rewrite IH; simpl; [done|..];
    by destruct p, (calls_then_sends _ t1), (calls_then_sends _ t2).
Qed.

Lemma pending_after_app (p : bool) (t1 t2 : list Event) :
  pending_after p (t1 ++ t2) = pending_after (pending_after p t1) t2.
Proof. revert p. induction t1 as [|e t1 IH]; intros p; simpl; [done|]. by destruct e. Qed.

Lemma calls_then_sends_logs (p : bool) (ls : list LogLine) :
  calls_then_sends p (Logged <$> ls) = true ∧ pending_after p (Logged <$> ls) = p.
Proof. induction ls as [|l ls IH]; simpl; done. Qed.

(** What one call of the end of the loop body adds to the trace. *)
Lemma pushResponse_trace (o : Oracle) (s : Stream) :
  ∃ ext, trace (pushResponse o s) = trace s ++ ext ∧
         calls_then_sends false ext = true ∧
         (handler (pushResponse o s) = Running → pending_after false ext = false).
Proof.
  unfold pushResponse.
  destruct (the_con s ≫= modelNode) as [proxy|]; [|by exists []; rewrite (right_id_L [] (++))].
  destruct (clusters _ _ _) as [response|]; [|by eexists [_]].
  destruct (send_error o) as [err|]; simpl.
  - eexists [_; _; _]. by rewrite <-!(assoc_L (++)).
  - destruct (cdsDebug (world s)); simpl.
    + eexists [_; _; _]. by rewrite <-!(assoc_L (++)).
    + eexists [_; _]. by rewrite <-!(assoc_L (++)).
Qed.

(** What one pass through the request branch adds to the trace: log
    lines, then what the end of the loop body adds. *)
Lemma requestBranch_trace (o : Oracle) (discReq : DiscoveryRequest) (s : Stream) :
  ∃ ls ext, trace (requestBranch o discReq s) = trace s ++ (Logged <$> ls) ++ ext ∧
            calls_then_sends false ext = true ∧
            (handler (requestBranch o discReq s) = Running → pending_after false ext = false).
Proof.
  assert (∀ s', trace s' = trace s →
            ∃ ls ext, trace s' = trace s ++ (Logged <$> ls) ++ ext ∧
                      calls_then_sends false ext = true ∧
                      (handler s' = Running → pending_after false ext = false)) as Hnone.
  { intros s' Ht. exists [], []. simpl. by rewrite (right_id_L [] (++)). }
  unfold requestBranch.
  destruct (req_Node discReq) as [n|]; [|by apply Hnone].
  destruct (ParseServiceNode (Id n)) as [nt|err]; [|apply Hnone; by case_decide].
  set (s1 := if decide (node s = "") then with_node (connectionID (Id n)) s else s).
  assert (trace s1 = trace s ∧ world s1 = world s ∧
          initialRequestReceived s1 = initialRequestReceived s) as (Ht1 & Hw1 & Hi1)
    by (unfold s1; by case_decide).
  clearbody s1. simpl. rewrite Hi1.
  destruct (initialRequestReceived s).
  - destruct (req_ErrorDetail discReq); simpl; rewrite Hw1;
      destruct (cdsDebug (world s)); simpl; rewrite Ht1.
    + eexists [_; _], []. simpl. by rewrite <-?(assoc_L (++)).
    + eexists [_], []. simpl. by rewrite <-?(assoc_L (++)).
    + eexists [_], []. simpl. by rewrite <-?(assoc_L (++)).
    + exists [], []. simpl. by rewrite (right_id_L [] (++)).
  - rewrite Hw1.
    match goal with
    | |- context [pushResponse ?o ?s4] =>
        destruct (pushResponse_trace o s4) as (ext & -> & Hok & Hrun)
    end.
    destruct (cdsDebug (world s)); simpl; rewrite Ht1.
    + eexists [_], ext. simpl. by rewrite <-?(assoc_L (++)).
    + exists [], ext. done.
Qed.

(** What one step adds to the trace. *)
Lemma step_trace (a : Action) (s : Stream) :
  ∃ ls ext, trace (step a s) = trace s ++ (Logged <$> ls) ++ ext ∧
            calls_then_sends false ext = true ∧
            (handler (step a s) = Running → pending_after false ext = false) ∧
            (handler s ≠ Running → ext = []).
Proof.
  assert (∀ s', trace s' = trace s →
            ∃ ls ext, trace s' = trace s ++ (Logged <$> ls) ++ ext ∧
                      calls_then_sends false ext = true ∧
                      (handler s' = Running → pending_after false ext = false) ∧
                      (handler s ≠ Running → ext = [])) as Hnone.
  { intros s' Ht. exists [], []. simpl. by rewrite (right_id_L [] (++)). }
  destruct a as [[req|err]|  |o|o| | |b]; simpl.
  - apply Hnone. by destruct (reader s).
  - destruct (reader s); try by apply Hnone.
    eexists [_], []. unfold readerRecv. simpl. by case_decide.
  - apply Hnone. unfold readerSend. destruct (reader s); try done.
    by destruct (chan_send _ _).
  - destruct (handler s) eqn:Hh; try by apply Hnone.
    unfold selectReq. destruct (chan_recv (reqChannel s)) as [r ch| |]; try by apply Hnone.
    destruct (requestBranch_trace o r (with_reqChannel ch s)) as (ls & ext & Ht & Hok & Hrun).
    exists ls, ext. done.
  - destruct (handler s) eqn:Hh; try by apply Hnone.
    unfold selectPush. destruct (the_con s) as [c|]; try by apply Hnone.
    destruct (chan_recv (pushChannel c)) as [v ch| |]; try by apply Hnone.
    destruct (pushResponse_trace o (update_con (set_pushChannel ch) s))
      as (ext & Ht & Hok & Hrun).
    exists [], ext. done.
  - apply Hnone. unfold signal. destruct (the_con s) as [c|]; [|done].
    by destruct (chan_send true (pushChannel c)).
  - by apply Hnone.
  - by apply Hnone.
Qed.

(** X12.  In every run of a stream the calls of the generator and the
    sends alternate in the trace, starting with a call: every response is
    sent right after a call of the generator of its own, with no other
    call or send between the two.  While the handler runs no call is left
    without its send. *)
Theorem sends_follow_their_generator_calls
    (w : World) (peer : option string) (now : Time) (acts : list Action) :
  let s := StreamClusters w peer now acts in
  calls_then_sends false (trace s) = true ∧
  (handler s = Running → pending_after false (trace s) = false).
Proof.
  simpl. unfold StreamClusters.
  induction acts as [|a acts IH] using rev_ind; [done|].
  rewrite run_snoc. destruct IH as [IHok IHrun].
  set (s := run acts (StreamClusters_open w peer now)) in *.
  destruct (step_trace a s) as (ls & ext & -> & Hok & Hrun & Hstop).
  destruct (calls_then_sends_logs (pending_after false (trace s)) ls) as [Hl1 Hl2].
  rewrite !calls_then_sends_app, !pending_after_app, IHok, Hl1, Hl2. simpl.
  destruct (handler s) eqn:Hh.
  - rewrite (IHrun eq_refl). done.
  - rewrite Hstop by done. split; [done|]. intros Hr.
    destruct (step_terminated a s) as (Hsame & _); [by rewrite Hh|]. congruence.
  - rewrite Hstop by done. split; [done|]. intros Hr.
    destruct (step_terminated a s) as (Hsame & _); [by rewrite Hh|]. congruence.
Qed.



(** How the request branch can end when the handler was running. *)
Lemma requestBranch_handler (o : Oracle) (discReq : DiscoveryRequest) (s : Stream) :
  handler s = Running → is_Some (the_con s) →
  let s' := requestBranch o discReq s in
  handler s' = Running ∨
  (handler s' = Crashed ∧
   (req_Node discReq = None ∨
    (is_Some (identity s') ∧ marshalAll (build_result o).1 = None))) ∨
  (∃ n e, req_Node discReq = Some n ∧ ParseServiceNode (Id n) = inr e ∧
          handler s' = Returned (Some e)) ∨
  (∃ e, send_error o = Some e ∧ handler s' = Returned (Some e)).
Proof.
  intros Hrun [c Hc]. simpl.
  destruct (requestBranch_cases o discReq s)
    as [[Hno ->]|[(n & err & Hn & Hp & ->)|[(n & nt & _ & _ & _ & _ & -> & _)
       |(n & nt & s4 & _ & _ & _ & -> & Hw4 & Hc4 & Hh4 & _)]]].
  - right. left. split; [done|]. by left.
  - right. right. left. exists n, err. done.
  - by left.
  - assert (identity s4 = Some nt) as Hid4.
    { unfold identity, the_con. rewrite Hw4, Hc4. simpl. rewrite lookup_alter_eq.
      unfold the_con in Hc. by rewrite Hc. }
    destruct (pushResponse_cases o s4)
      as [[Hnone _]|[(p & _ & Hm & ->)|(p & anys & _ & _ & _ & _ & -> & _)]].
    + congruence.
    + right. left. split; [done|]. right. split; [|done].
      change (identity (with_handler Crashed ?x)) with (identity x).
      rewrite identity_emit, Hid4. by eexists.
    + destruct (send_error o) as [e|].
      * right. right. right. by exists e.
      * left. congruence.
Qed.


Lemma read_failure_result_terminal (err : error) :
  terminal_error err = read_failure_result err.
Proof.
  unfold terminal_error, read_failure_result.
  destruct err as [|code msg|msg]; [|destruct code|]; reflexivity.
Qed.

Lemma trigger_fields (w : World) (c : loc) (ch0 : Chan bool) :
  set_pushChannel ch0 <$> heap (trigger w) !! c = set_pushChannel ch0 <$> heap w !! c.
Proof.
  unfold trigger, cdsPushAll.
  destruct (pushLoop _ w) as [w'|w'|w'] eqn:Hr; eapply pushLoop_fields; eauto.
Qed.

Lemma con_stays_allocated
    (w : World) (peer : option string) (now : Time) (acts : list Action) :
  is_Some (the_con (StreamClusters w peer now acts)).
Proof.
  unfold StreamClusters. induction acts as [|a acts IH] using rev_ind.
  - unfold the_con. simpl. rewrite lookup_insert_eq. by eexists.
  - rewrite run_snoc. set (s := run acts (StreamClusters_open w peer now)) in *.
    destruct IH as [c Hc].
    assert (∀ f, is_Some (the_con (update_con f s))) as Hupd.
    { intros f. unfold the_con, update_con. simpl. rewrite lookup_alter_eq.
      unfold the_con in Hc. rewrite Hc. by eexists. }
    unfold the_con. rewrite step_con. unfold the_con in Hc.
    assert (∀ s', world s' = world s → is_Some (heap (world s') !! con s)) as Hsame.
    { intros s' ->. by rewrite Hc. }
    destruct a as [[req|err]|  |o|o| | |b]; simpl.
    + apply Hsame. by destruct (reader s).
    + apply Hsame. destruct (reader s); try done. unfold readerRecv. simpl. by case_decide.
    + apply Hsame. unfold readerSend. destruct (reader s); try done.
      by destruct (chan_send _ _).
    + destruct (handler s); try by apply Hsame. unfold selectReq.
      destruct (chan_recv (reqChannel s)) as [r ch| |]; try by apply Hsame.
      destruct (requestBranch_world o r (with_reqChannel ch s)) as [->|[nt ->]].
      * by apply Hsame.
      * apply (Hupd (set_modelNode (Some nt))).
    + destruct (handler s); try by apply Hsame. unfold selectPush, the_con. rewrite Hc.
      destruct (chan_recv (pushChannel c)) as [v ch| |]; try by apply Hsame.
      rewrite (proj1 (pushResponse_frame o _)). apply (Hupd (set_pushChannel ch)).
    + unfold signal, the_con. rewrite Hc.
      destruct (chan_send true (pushChannel c)) as [ch| |]; try by apply Hsame.
      apply (Hupd (set_pushChannel ch)).
    + pose proof (trigger_fields (world s) (con s) (pushChannel c)) as Hf.
      rewrite Hc in Hf. simpl in Hf.
      destruct (heap (trigger (world s)) !! con s); [by eexists|done].
    + by apply Hsame.
Qed.

(** C8, as the code has it.  Let the reader be in [stream.Recv] at any
    point of any run of a stream, and let [Recv] fail with [err].  The
    reader closes the request channel and records [err] unless it is
    [io.EOF] or a cancellation.  From then on, as long as the handler has
    not returned, the request case of its [select] is ready and at most
    one request is still buffered.  With none buffered, taking the case
    makes the handler return: nil for [io.EOF] and for a cancellation, and
    [err] itself otherwise.  With one buffered, that request is handled
    first, and it decides the outcome: the handler crashes, or returns the
    parse error of the request, or returns the error of its send, or goes
    on, and only in the last case does the next take return as for an
    empty buffer. *)
Theorem recv_failure_result_after_buffered_request
    (w : World) (peer : option string) (now : Time)
    (before after : list Action) (err : error) (o : Oracle) :
  let s := StreamClusters w peer now before in
  reader s = InRecv →
  let s' := run after (step (Recv (inr err)) s) in
  handler s' = Running →
  chan_closed (reqChannel s') = true ∧
  receiveError s' = read_failure_result err ∧
  read_failure_result io_EOF = None ∧
  (∀ msg, read_failure_result (StatusError Canceled msg) = None) ∧
  (err ≠ io_EOF → status_Code (Some err) ≠ Canceled → read_failure_result err = Some err) ∧
  match chan_buf (reqChannel s') with
  | [] => handler (step (SelectReq o) s') = Returned (read_failure_result err)
  | [discReq] =>
      let s2 := step (SelectReq o) s' in
      s2 = requestBranch o discReq (with_reqChannel (MkChan 1 [] true) s') ∧
      ((handler s2 = Running ∧
        ∀ o', handler (step (SelectReq o') s2) = Returned (read_failure_result err)) ∨
       handler s2 = Crashed ∨
       (∃ n e, req_Node discReq = Some n ∧ ParseServiceNode (Id n) = inr e ∧
               handler s2 = Returned (Some e)) ∨
       (∃ e, send_error o = Some e ∧ handler s2 = Returned (Some e)))
  | _ => False
  end.
Proof.
  intros s Hrd s' Hrun.
  assert (is_Some (the_con s')) as Hcon.
  { pose proof (con_stays_allocated w peer now (before ++ Recv (inr err) :: after)) as Hc.
    unfold StreamClusters in Hc. rewrite run_app in Hc. exact Hc. }
  pose proof (recv_failure_ends_stream w peer now before after err o Hrd Hrun)
    as (Hcl & Hre & Hm).
  change (StreamClusters w peer now before) with s in Hcl, Hre, Hm.
  change (run after (step (Recv (inr err)) s)) with s' in Hcl, Hre, Hm.
  clearbody s'. rewrite read_failure_result_terminal in Hm.
  split; [exact Hcl|]. split.
  { rewrite Hre. apply (read_failure_result_terminal err). }
  split; [reflexivity|]. split; [reflexivity|]. split.
  { intros Heof Hcode. rewrite <-read_failure_result_terminal.
    by apply terminal_error_cases. }
  destruct (chan_buf (reqChannel s')) as [|discReq [|? ?]]; [exact Hm| |done].
  destruct Hm as [Hs2 Hnext]. split; [exact Hs2|].
  assert (handler (with_reqChannel (MkChan 1 [] true) s') = Running) as Hrun0 by done.
  destruct (requestBranch_handler o discReq (with_reqChannel (MkChan 1 [] true) s')
              Hrun0 Hcon) as [Hr|[[Hr _]|[(n & e & Hn & Hp & Hr)|(e & He & Hr)]]];
    rewrite <-Hs2 in Hr.
  - left. split; [exact Hr|]. intros o'. by apply Hnext.
  - right. by left.
  - right. right. left. by exists n, e.
  - right. right. right. by exists e.
Qed.

End Ordering.

(** *** The same at concrete streams *)




(** The stream [Inputs.active], whose reader then meets a transport error. *)
Lemma recv_failure_result_after_buffered_request_witness :
  reader (StreamClusters Inputs.empty_world (Some "10.0.0.1:5000") 0%Z
            Inputs.initial_exchange) = InRecv ∧
  handler (run [] (step (Recv (inr Inputs.transport_error))
                     (StreamClusters Inputs.empty_world (Some "10.0.0.1:5000") 0%Z
                        Inputs.initial_exchange)))
  = Running ∧
  handler (step (SelectReq Inputs.answer)
             (run [] (step (Recv (inr Inputs.transport_error))
                        (StreamClusters Inputs.empty_world (Some "10.0.0.1:5000") 0%Z
                           Inputs.initial_exchange))))
  = Returned (Some Inputs.transport_error).
Proof.
  assert (reader (StreamClusters Inputs.empty_world (Some "10.0.0.1:5000") 0%Z
                    Inputs.initial_exchange) = InRecv) as Hrd
    by (vm_compute; reflexivity).
  assert (handler (run [] (step (Recv (inr Inputs.transport_error))
                             (StreamClusters Inputs.empty_world (Some "10.0.0.1:5000") 0%Z
                                Inputs.initial_exchange))) = Running) as Hrun
    by (vm_compute; reflexivity).
  split; [exact Hrd|]. split; [exact Hrun|].
  pose proof (recv_failure_result_after_buffered_request Inputs.empty_world
                (Some "10.0.0.1:5000") 0%Z Inputs.initial_exchange []
                Inputs.transport_error Inputs.answer Hrd Hrun)
    as (_ & _ & _ & _ & _ & Hw).
  vm_compute in Hw. vm_compute. exact Hw.
Defined.

(** C8 as stated fails.  A request whose node does not parse is buffered
    when [Recv] fails with [io.EOF]: the handler returns the parse error,
    not nil.  The initial request is buffered when [Recv] fails with a
    transport error and the send of the answer fails: the handler returns
    the error of the send, not the read error. *)
Lemma buffered_request_decides_the_result :
  handler (run MoreInputs.eof_behind_bad_request Inputs.active)
  = Returned (Some (ErrorString "missing parts in the service node")) ∧
  receiveError (run MoreInputs.eof_behind_bad_request Inputs.active) = None ∧
  handler (run MoreInputs.failure_behind_initial_request Inputs.opened)
  = Returned (Some (ErrorString "stream is closed")) ∧
  receiveError (run MoreInputs.failure_behind_initial_request Inputs.opened)
  = Some (StatusError Unavailable "transport is closing").
Proof. vm_compute. repeat split. Qed.
